(** * Montgomery arithmetic over p = 2^128 - 2^108 + 1

    A shallow embedding of the Python reference scripts of longfellow-zk
    (rust-longfellow-zk/ and rust-longfellow-zk/longfellow-algebra/examples/)
    and the properties of the field engine they exercise.

    Python integers are unbounded, so they are embedded as [Z]; [&], [|],
    [<<], [>>], [%] and [//] are [Z.land], [Z.lor], [Z.shiftl], [Z.shiftr],
    [Z.modulo] and [Z.div] (all of them agree with Python on negative
    operands as well).  A Python list of limbs is a [list Z] read with
    stdpp's lookup; an index out of range raises IndexError in Python and
    is [None] here, so every limb-level function returns an [option]. *)

From Stdlib Require Import ZArith Lia Znumtheory Zpow_facts.
From stdpp Require Import base option list gmap.
From Equations Require Import Equations.

Local Open Scope Z_scope.

(** ** Limbs and checked list access *)

(** [(1 << 64) - 1] *)
Definition mask64 : Z := Z.shiftl 1 64 - 1.

(** [l[i] = v]: IndexError (here [None]) when [i] is out of range. *)
Definition list_set (l : list Z) (i : nat) (v : Z) : option (list Z) :=
  match l !! i with
  | Some _ => Some (<[i := v]> l)
  | None => None
  end.

(** A [for] loop whose body may raise. *)
Fixpoint foldlM {A B : Type} (f : A → B → option A) (a : A) (l : list B)
  : option A :=
  match l with
  | [] => Some a
  | b :: l' => a' ← f a b; foldlM f a' l'
  end.

(** [for i in range(n): limbs.append(temp & ((1 << 64) - 1)); temp >>= 64] *)
Fixpoint split_limbs (n : nat) (temp : Z) : list Z :=
  match n with
  | O => []
  | S n' => Z.land temp mask64 :: split_limbs n' (Z.shiftr temp 64)
  end.

(** [while len(limbs) < n: limbs.append(0)] *)
Definition pad_limbs (n : nat) (limbs : list Z) : list Z :=
  limbs ++ replicate (n - length limbs) 0.

(** ** fixed_redc.py and correct_montgomery_ref.py *)

(** Body of the [for j in range(2)] loop shared by [fixed_redc] and
    [montgomery_mult]; the state is the limb list and the running carry. *)
Definition add_mp_step (m : Z) (p_limbs : list Z) (i : nat)
    (st : list Z * Z) (j : nat) : option (list Z * Z) :=
  let '(t_limbs, carry) := st in
  pj ← p_limbs !! j;
  let prod := m * pj in
  let prod_lo := Z.land prod mask64 in
  let prod_hi := Z.shiftr prod 64 in
  old_val ← t_limbs !! (i + j)%nat;
  let sum_val := old_val + prod_lo + carry in
  t_limbs' ← list_set t_limbs (i + j) (Z.land sum_val mask64);
  Some (t_limbs', Z.shiftr sum_val 64 + prod_hi).

(** [m = (t_limbs[i] * inv) & ((1 << 64) - 1)] followed by the [j] loop:
    the limbs and the carry that is about to be added into [t[i+2]]. *)
Definition add_mp (p_limbs : list Z) (inv : Z) (t_limbs : list Z) (i : nat)
  : option (list Z * Z) :=
  ti ← t_limbs !! i;
  let m := Z.land (ti * inv) mask64 in
  foldlM (add_mp_step m p_limbs i) (t_limbs, 0) (seq 0 2).

(** One iteration of the [for i in range(2)] loop of [fixed_redc]. *)
Definition fixed_redc_round (p_limbs : list Z) (inv : Z)
    (t_limbs : list Z) (i : nat) : option (list Z) :=
  '(t_limbs, carry) ← add_mp p_limbs inv t_limbs i;
  if (i + 2 <? length t_limbs)%nat then
    old_val ← t_limbs !! (i + 2)%nat;
    list_set t_limbs (i + 2) (Z.land (old_val + carry) mask64)
  else Some t_limbs.

(** The limbs after the first [k] rounds of [fixed_redc]. *)
Definition fixed_redc_rounds (k : nat) (t p inv : Z) : option (list Z) :=
  foldlM (fixed_redc_round (split_limbs 2 p) inv) (split_limbs 4 t) (seq 0 k).

(** [if result >= p: result -= p] *)
Definition cond_sub (result p : Z) : Z :=
  if p <=? result then result - p else result.

Definition fixed_redc (t p inv : Z) : option Z :=
  t_limbs ← fixed_redc_rounds 2 t p inv;
  l2 ← t_limbs !! 2%nat;
  l3 ← t_limbs !! 3%nat;
  Some (cond_sub (Z.lor l2 (Z.shiftl l3 64)) p).

(** One iteration of the REDC loop of [montgomery_mult]
    (correct_montgomery_ref.py): the carry is added to [limbs[i + 2]]
    without a length test. *)
Definition montgomery_mult_round (p_limbs : list Z) (inv : Z)
    (limbs : list Z) (i : nat) : option (list Z) :=
  '(limbs, carry) ← add_mp p_limbs inv limbs i;
  old_val ← limbs !! (i + 2)%nat;
  list_set limbs (i + 2) (Z.land (old_val + carry) mask64).

Definition montgomery_mult_rounds (k : nat) (a b p inv : Z)
  : option (list Z) :=
  let t := a * b in
  foldlM (montgomery_mult_round (split_limbs 2 p) inv)
         (pad_limbs 4 (split_limbs 4 t)) (seq 0 k).

(** The parameter [r] is accepted and never read, as in the source. *)
Definition montgomery_mult (a b p r inv : Z) : option Z :=
  limbs ← montgomery_mult_rounds 2 a b p inv;
  l2 ← limbs !! 2%nat;
  l3 ← limbs !! 3%nat;
  Some (cond_sub (Z.lor l2 (Z.shiftl l3 64)) p).

(** ** redc_debug.py *)

(** Body of the [j] loop of [debug_redc]: the 128-bit product is added
    whole and the carry is everything above bit 64. *)
Definition debug_add_step (m : Z) (p_limbs : list Z) (i : nat)
    (st : list Z * Z) (j : nat) : option (list Z * Z) :=
  let '(t_limbs, carry) := st in
  pj ← p_limbs !! j;
  let prod := m * pj in
  old_val ← t_limbs !! (i + j)%nat;
  let new_val := old_val + prod + carry in
  t_limbs' ← list_set t_limbs (i + j) (Z.land new_val mask64);
  Some (t_limbs', Z.shiftr new_val 64).

Definition debug_redc_round (p_limbs : list Z) (inv : Z)
    (t_limbs : list Z) (i : nat) : option (list Z) :=
  ti ← t_limbs !! i;
  let m := Z.land (ti * inv) mask64 in
  '(t_limbs, carry) ← foldlM (debug_add_step m p_limbs i) (t_limbs, 0) (seq 0 2);
  if (i + 2 <? length t_limbs)%nat then
    old_val ← t_limbs !! (i + 2)%nat;
    list_set t_limbs (i + 2) (Z.land (old_val + carry) mask64)
  else Some t_limbs.

Definition debug_redc_rounds (k : nat) (t p inv : Z) : option (list Z) :=
  foldlM (debug_redc_round (split_limbs 2 p) inv) (split_limbs 4 t) (seq 0 k).

Definition debug_redc (t p inv : Z) : option Z :=
  t_limbs ← debug_redc_rounds 2 t p inv;
  l2 ← t_limbs !! 2%nat;
  l3 ← t_limbs !! 3%nat;
  Some (cond_sub (Z.lor l2 (Z.shiftl l3 64)) p).

(** ** textbook_redc.py *)

(** [for i in range(n): digits.append(temp % radix); temp //= radix] *)
Fixpoint split_digits (radix : Z) (n : nat) (temp : Z) : list Z :=
  match n with
  | O => []
  | S n' => temp mod radix :: split_digits radix n' (temp / radix)
  end.

Definition textbook_add_step (radix m : Z) (N_digits : list Z) (i : nat)
    (st : list Z * Z) (j : nat) : option (list Z * Z) :=
  let '(T_digits, carry) := st in
  nj ← N_digits !! j;
  let prod := m * nj in
  old_val ← T_digits !! (i + j)%nat;
  let sum_val := old_val + prod + carry in
  T_digits' ← list_set T_digits (i + j) (sum_val mod radix);
  Some (T_digits', sum_val / radix).

(** [while carry > 0 and k < len(T_digits)]: [todo] is
    [len(T_digits) - k], which the loop decreases by one per iteration
    ([k += 1], the length never changes), so [todo = 0] is exactly the
    exit by [k >= len(T_digits)]. *)
Fixpoint propagate_carry (radix : Z) (todo : nat) (T_digits : list Z)
    (carry : Z) (k : nat) : option (list Z) :=
  match todo with
  | O => Some T_digits
  | S todo' =>
      if 0 <? carry then
        old_val ← T_digits !! k;
        let sum_val := old_val + carry in
        T_digits' ← list_set T_digits k (sum_val mod radix);
        propagate_carry radix todo' T_digits' (sum_val / radix) (S k)
      else Some T_digits
  end.

Definition textbook_redc_round (radix : Z) (n : nat) (N_digits : list Z)
    (N_prime : Z) (T_digits : list Z) (i : nat) : option (list Z) :=
  ti ← T_digits !! i;
  let m := (ti * N_prime) mod radix in
  '(T_digits, carry) ←
    foldlM (textbook_add_step radix m N_digits i) (T_digits, 0) (seq 0 n);
  let k := (i + n)%nat in
  propagate_carry radix (length T_digits - k) T_digits carry k.

(** [for i in range(n, 2 * n): if i < len(T_digits):
      result += T_digits[i] * (radix ** (i - n))] *)
Definition textbook_extract (radix : Z) (n : nat) (T_digits : list Z) : Z :=
  fold_left
    (fun result i =>
       match T_digits !! i with
       | Some d => result + d * radix ^ Z.of_nat (i - n)
       | None => result
       end)
    (seq n n) 0.

Definition textbook_redc_rounds (k : nat) (T N N_prime radix_bits : Z)
  : option (list Z) :=
  let radix := Z.shiftl 1 radix_bits in
  let n := 2%nat in
  foldlM (textbook_redc_round radix n (split_digits radix n N) N_prime)
         (split_digits radix (2 * n) T) (seq 0 k).

(** [radix_bits] defaults to 64 in the source; every caller uses the
    default. *)
Definition textbook_redc (T N N_prime radix_bits : Z) : option Z :=
  let radix := Z.shiftl 1 radix_bits in
  let n := 2%nat in
  T_digits ← textbook_redc_rounds n T N N_prime radix_bits;
  Some (cond_sub (textbook_extract radix n T_digits) N).

(** ** verify_mont_math.py: whole-integer reduction *)

(** Body of [for i in range(2)] in [montgomery_reduce]. *)
Definition montgomery_reduce_step (p inv : Z) (result : Z) (i : nat) : Z :=
  let limb_mask := Z.shiftl 1 64 - 1 in
  let t_i := Z.land (Z.shiftr result (64 * Z.of_nat i)) limb_mask in
  let m := Z.land (t_i * inv) limb_mask in
  result + m * p * Z.shiftl 1 (64 * Z.of_nat i).

(** [result >> 128] just before the conditional subtraction. *)
Definition montgomery_reduce_pre (T p inv : Z) : Z :=
  Z.shiftr (fold_left (montgomery_reduce_step p inv) (seq 0 2) T) 128.

Definition montgomery_reduce (T p inv : Z) : Z :=
  cond_sub (montgomery_reduce_pre T p inv) p.

(** The multiplier [m] of round 0 and of round 1 of [montgomery_reduce],
    as functions of the input. *)
Definition redc_m0 (p inv T : Z) : Z := (T mod 2 ^ 64 * inv) mod 2 ^ 64.
Definition redc_m1 (p inv T : Z) : Z :=
  (((T + redc_m0 p inv T * p) / 2 ^ 64) mod 2 ^ 64 * inv) mod 2 ^ 64.

(** ** test_montgomery.py: the manual reduction of [R] *)

(** Body of [for j in range(4): if i + j < 4: ...]; [temp] is [m * p]. *)
Definition manual_add_step (temp : Z) (i : nat) (st : list Z * Z) (j : nat)
  : option (list Z * Z) :=
  let '(t, carry) := st in
  if (i + j <? 4)%nat then
    old_val ← t !! (i + j)%nat;
    let val :=
      old_val + Z.land (Z.shiftr temp (64 * Z.of_nat j)) mask64 + carry in
    t' ← list_set t (i + j) (Z.land val mask64);
    Some (t', Z.shiftr val 64)
  else Some (t, carry).

Definition manual_round (p mprime : Z) (t : list Z) (i : nat)
  : option (list Z) :=
  ti ← t !! i;
  let m := Z.land (ti * mprime) mask64 in
  let temp := m * p in
  '(t, _) ← foldlM (manual_add_step temp i) (t, 0) (seq 0 4);
  Some t.

(** Lines 63-88 of test_montgomery.py with the reduced value [x] (the
    script runs it on [R]): no conditional subtraction follows. *)
Definition from_montgomery_manual (x p mprime : Z) : option Z :=
  let t := replicate 4 0 in
  t ← list_set t 0 (Z.land x mask64);
  t ← list_set t 1 (Z.land (Z.shiftr x 64) mask64);
  t ← foldlM (manual_round p mprime) t (seq 0 2);
  result_low ← t !! 2%nat;
  result_high ← t !! 3%nat;
  Some (Z.lor (Z.shiftl result_high 64) result_low).

(** ** Python built-ins *)

(** [pow(base, exp, mod)] for [exp >= 0] and [mod != 0], which is every
    three-argument call with a non-negative exponent in these scripts:
    [base ** exp % mod], computed by repeated squaring. *)
Definition pow_mod (base exp modulus : Z) : Z := Zpow_mod base exp modulus.

(** [pow(base, -1, mod)]: the inverse of [base] modulo [mod] in
    [[0, mod)], ValueError (here [None]) when [base] is not invertible. *)
Definition pow_inv (base modulus : Z) : option Z :=
  if Z.gcd base modulus =? 1 then Some (Z.invmod base modulus) else None.

(** [n.bit_length()] *)
Definition bit_length (n : Z) : Z :=
  if n =? 0 then 0 else Z.log2 (Z.abs n) + 1.

(** [x.to_bytes(length, 'little')]: OverflowError (here [None]) when [x]
    is negative or does not fit. *)
Fixpoint le_bytes (length : nat) (x : Z) : list Z :=
  match length with
  | O => []
  | S n => x mod 256 :: le_bytes n (x / 256)
  end.

Definition to_bytes (x : Z) (length : nat) : option (list Z) :=
  if (0 <=? x) && (x <? 256 ^ Z.of_nat length) then Some (le_bytes length x)
  else None.

(** ** compute_montgomery_constants.py *)

Equations? extended_gcd (a b : Z) : Z * Z * Z by wf (Z.abs_nat a) lt :=
  extended_gcd a b with Z.eq_dec a 0 => {
    | left _ := (b, 0, 1);
    | right _ :=
        let '(gcd, x1, y1) := extended_gcd (b mod a) a in
        let x := y1 - (b / a) * x1 in
        let y := x1 in
        (gcd, x, y) }.
Proof.
  destruct (Z.lt_ge_cases 0 a).
  - pose proof (Z.mod_pos_bound b a). lia.
  - pose proof (Z.mod_neg_bound b a). lia.
Qed.

Definition mod_inverse (a m : Z) : option Z :=
  let '(gcd, x, _) := extended_gcd a m in
  if gcd =? 1 then Some (x mod m) else None.

(** ** The constants of the scripts *)

Module Fp128.
(** [p = (1 << 128) - (1 << 108) + 1] *)
Definition p : Z := Z.shiftl 1 128 - Z.shiftl 1 108 + 1.

(** [R = pow(2, 128, p)] and [R2 = pow(2, 256, p)]
    (compute_montgomery_constants.py) *)
Definition R : Z := pow_mod 2 128 p.
Definition R2 : Z := pow_mod 2 256 p.

(** [INV = 0xFFFFFFFFFFFFFFFF] (verify_mont_math.py) *)
Definition INV : Z := 0xFFFFFFFFFFFFFFFF.

(** [inv_p = mod_inverse((-p) % (1 << 64), 1 << 64)]
    (compute_montgomery_constants.py) *)
Definition inv_p : option Z :=
  mod_inverse ((- p) mod Z.shiftl 1 64) (Z.shiftl 1 64).

(** [inv = pow((-p) % (1 << 64), -1, 1 << 64)] (fixed_redc.py,
    textbook_redc.py, redc_debug.py, correct_montgomery_ref.py) *)
Definition inv : option Z :=
  pow_inv ((- p) mod Z.shiftl 1 64) (Z.shiftl 1 64).

(** [inv = pow(p, -1, 1 << 64)] (reference_montgomery.py) *)
Definition reference_inv : option Z := pow_inv p (Z.shiftl 1 64).

(** [mprime = (1 << 64) - 1] (test_montgomery.py) *)
Definition mprime : Z := Z.shiftl 1 64 - 1.

(** [pow(r, -1, p)], the factor that converts back to regular form
    (correct_montgomery_ref.py, fixed_redc.py) *)
Definition R_inv : option Z := pow_inv R p.

(** [cpp_omega_32] (precompute_roots.py), [omega_32_from_comment]
    (check_omega.py) *)
Definition cpp_omega_32 : Z := 164956748514267535023998284330560247862.
End Fp128.

(** Modelled from the spec: the Rust engine's [from_canonical] and
    [to_canonical] are not among the Python scripts.  Section 4.3:
    [from_canonical(x)] is REDC applied to the plain product [x * R2], and
    [to_canonical(e)] is REDC applied to [e] itself; REDC is
    [montgomery_reduce] of verify_mont_math.py. *)
Definition from_canonical (x : Z) : Z :=
  montgomery_reduce (x * Fp128.R2) Fp128.p Fp128.INV.

Definition to_canonical (e : Z) : Z :=
  montgomery_reduce e Fp128.p Fp128.INV.

(** ** precompute_roots.py *)

Definition sizes : list Z :=
  [2; 4; 8; 16; 32; 64; 128; 256; 512; 1024; 2048; 4096; 8192; 16384;
   32768; 65536].

(** [log_n = n.bit_length() - 1] *)
Definition log_n (n : Z) : Z := bit_length n - 1.

(** [omega_n = pow(cpp_omega_32, 2**(32 - log_n), p)] *)
Definition omega_n (n : Z) : Z :=
  let exponent := 2 ^ (32 - log_n n) in
  pow_mod Fp128.cpp_omega_32 exponent Fp128.p.

(** The dict [roots] after the loop [for n in sizes: roots[n] = omega_n]. *)
Definition roots : gmap Z Z :=
  foldl (fun roots n => <[n := omega_n n]> roots) ∅ sizes.

(** [test = pow(omega_n, n, p)]; the check is [test == 1]. *)
Definition root_test (n : Z) : Z := pow_mod (omega_n n) n Fp128.p.

(** The flag [primitive] after the loop
    [for k in range(1, log_n + 1): if pow(omega_n, n // (2**k), p) == 1]. *)
Definition primitive (n : Z) : bool :=
  forallb
    (fun k => negb (pow_mod (omega_n n) (n / 2 ^ Z.of_nat k) Fp128.p =? 1))
    (seq 1 (Z.to_nat (log_n n))).

(** Modelled from the spec: [from_bytes_le] is a Rust function that is not
    among the Python scripts.  Field elements are serialised as a fixed
    16-byte little-endian encoding (section 6) and a value that is not
    below [p] is rejected when a FieldElement is built (section 4.4). *)
Definition from_bytes_le (bytes : list Z) : option Z :=
  let x := foldr (fun b acc => b + 256 * acc) 0 bytes in
  if (length bytes =? 16)%nat && (x <? Fp128.p) then Some x else None.

(** The lookup table that lines 47-56 print:
    [match n { <n> => Some(Self::from_bytes_le(&[<roots[n] bytes>]).ok()?),
               ..., _ => None }], one arm for each [n] in [sizes]. *)
Definition root_for (n : Z) : option Z :=
  if bool_decide (n ∈ sizes) then
    omega ← roots !! n;
    omega_bytes ← to_bytes omega 16;
    from_bytes_le omega_bytes
  else None.

(** ** Predicates used in the statements *)

(** An unsigned 64-bit limb. *)
Definition limb (x : Z) : Prop := 0 <= x < 2 ^ 64.

(** [rounds k] being the limbs after the first [k] reduction rounds:
    after round [i] the limb [t[i]] is zero, for both rounds. *)
Definition zeroes_target (rounds : nat → option (list Z)) : Prop :=
  ∀ i : nat, (i < 2)%nat →
    ∃ limbs, rounds (S i) = Some limbs ∧ limbs !! i = Some 0.

(** [n] is a power of two. *)
Definition power_of_two (n : Z) : Prop := ∃ k : Z, 0 <= k ∧ n = 2 ^ k.

(** ** reference_montgomery.py *)

Module Reference.
(** [while temp > 0: limbs.append(temp & ((1 << 64) - 1)); temp >>= 64] *)
Equations? split_while (temp : Z) : list Z by wf (Z.to_nat temp) lt :=
  split_while temp with Z_lt_dec 0 temp => {
    | left _ := Z.land temp mask64 :: split_while (Z.shiftr temp 64);
    | right _ := [] }.
Proof.
  rewrite Z.shiftr_div_pow2 by lia.
  assert (temp / 2 ^ 64 < temp) by (apply Z.div_lt; lia).
  assert (0 <= temp / 2 ^ 64) by (apply Z.div_pos; lia).
  lia.
Qed.

(** One iteration of the REDC loop: the limbs of [p] are recomputed in
    each round, the [j] loop is the one of [fixed_redc], and the carry is
    added to [limbs[i + 2]] without a mask, or appended when the list is
    too short. *)
Definition montgomery_mult_round (p inv : Z) (limbs : list Z) (i : nat)
  : option (list Z) :=
  let p_limbs := [Z.land p mask64; Z.land (Z.shiftr p 64) mask64] in
  '(limbs, carry) ← add_mp p_limbs inv limbs i;
  if (i + 2 <? length limbs)%nat then
    old_val ← limbs !! (i + 2)%nat;
    list_set limbs (i + 2) (old_val + carry)
  else Some (limbs ++ [carry]).

(** [for i in range(2, min(4, len(limbs))):
      result |= limbs[i] << (64 * (i - 2))] *)
Definition extract_result (limbs : list Z) : option Z :=
  foldlM
    (fun result i =>
       li ← limbs !! i;
       Some (Z.lor result (Z.shiftl li (64 * Z.of_nat (i - 2)))))
    0 (seq 2 (Nat.min 4 (length limbs) - 2)).

(** The parameter [r] is accepted and never read, as in the source. *)
Definition montgomery_mult (a b p r inv : Z) : option Z :=
  let t := a * b in
  let limbs := pad_limbs 4 (split_while t) in
  limbs ← foldlM (montgomery_mult_round p inv) limbs (seq 0 2);
  result ← extract_result limbs;
  Some (cond_sub result p).
End Reference.

(** ** trace_six_mult.py: the four-limb product *)

Definition to_limbs (x : Z) : list Z :=
  [Z.land x 0xffffffffffffffff; Z.land (Z.shiftr x 64) 0xffffffffffffffff].

(** [l[k] += v] *)
Definition list_add (l : list Z) (k : nat) (v : Z) : option (list Z) :=
  old_val ← l !! k; list_set l k (old_val + v).

(** Body of the nested loops [for i in range(2): for j in range(2)]. *)
Definition mul_step (a_limbs b_limbs : list Z) (i : nat)
    (prod_limbs : list Z) (j : nat) : option (list Z) :=
  ai ← a_limbs !! i;
  bj ← b_limbs !! j;
  let val := ai * bj in
  prod_limbs ← list_add prod_limbs (i + j) (Z.land val 0xffffffffffffffff);
  list_add prod_limbs (i + j + 1) (Z.shiftr val 64).

(** Body of [for i in range(3)]: handle carries. *)
Definition carry_step (prod_limbs : list Z) (i : nat) : option (list Z) :=
  v ← prod_limbs !! i;
  if Z.shiftl 1 64 <=? v then
    prod_limbs ← list_add prod_limbs (i + 1) (Z.shiftr v 64);
    v ← prod_limbs !! i;
    list_set prod_limbs i (Z.land v 0xffffffffffffffff)
  else Some prod_limbs.

(** Lines 52-70 with the two operands as parameters (the script runs them
    on [six_R] and [six_inv_R]). *)
Definition prod_limbs (x y : Z) : option (list Z) :=
  let a_limbs := to_limbs x in
  let b_limbs := to_limbs y in
  prod_limbs ←
    foldlM
      (fun prod_limbs i =>
         foldlM (mul_step a_limbs b_limbs i) prod_limbs (seq 0 2))
      [0; 0; 0; 0] (seq 0 2);
  foldlM carry_step prod_limbs (seq 0 3).

(** ** debug_step_by_step.py: binary exponentiation *)

(** Body of [for bit_pos in range(32)]; the state is [(result, base)]. *)
Definition pow_step (exp p : Z) (st : Z * Z) (bit_pos : nat) : Z * Z :=
  let '(result, base) := st in
  let bit := Z.land (Z.shiftr exp (Z.of_nat bit_pos)) 1 in
  let result := if bit =? 1 then (result * base) mod p else result in
  let base := if (bit_pos <? 31)%nat then (base * base) mod p else base in
  (result, base).

(** Lines 16-34 with the base, the exponent and the modulus as parameters
    (the script runs them on [omega], [2**31] and [p]). *)
Definition binary_pow (omega exp p : Z) : Z :=
  fst (fold_left (pow_step exp p) (seq 0 32) (1, omega)).

(** ** compare_intermediate_steps.py: repeated squaring *)

(** [python_current = omega_32;
     for i in range(k): python_current = (python_current * python_current) % p] *)
Definition square_steps (omega_32 p : Z) (k : nat) : Z :=
  Nat.iter k (fun python_current => (python_current * python_current) mod p)
           omega_32.

(** * Properties *)

(** ** Bit operations as arithmetic *)

Lemma mask64_ones : mask64 = Z.ones 64.
Proof. reflexivity. Qed.

Lemma land_mask64 x : Z.land x mask64 = x mod 2 ^ 64.
Proof. rewrite mask64_ones. apply Z.land_ones. lia. Qed.

Lemma shiftr_64 x : Z.shiftr x 64 = x / 2 ^ 64.
Proof. apply Z.shiftr_div_pow2. lia. Qed.

Lemma mod64_bound x : 0 <= x mod 2 ^ 64 < 2 ^ 64.
Proof. apply Z.mod_pos_bound. lia. Qed.

Lemma cond_sub_range x p : 0 <= x < 2 * p → 0 <= cond_sub x p < p.
Proof. unfold cond_sub. destruct (Z.leb_spec p x); lia. Qed.

Lemma cond_sub_mod x p : 0 < p → cond_sub x p mod p = x mod p.
Proof.
  intros Hp. unfold cond_sub. destruct (Z.leb_spec p x); [|done].
  replace x with (x - p + 1 * p) at 2 by ring. by rewrite Z.mod_add by lia.
Qed.

(** ** The whole-integer reduction, for any modulus with [p * inv ≡ -1] *)

Section Reduce.
Variables p inv : Z.
Hypothesis Hinv : (p * inv + 1) mod 2 ^ 64 = 0.

(** The multiplier chosen by a round cancels the limb it was computed
    from. *)
Lemma round_zeroes_limb q :
  (q + ((q mod 2 ^ 64 * inv) mod 2 ^ 64) * p) mod 2 ^ 64 = 0.
Proof.
  rewrite <- (Z.add_mod_idemp_l q) by lia.
  rewrite <- Z.add_mod_idemp_r by lia.
  rewrite Z.mul_mod_idemp_l by lia.
  rewrite Z.add_mod_idemp_r by lia.
  set (a := q mod 2 ^ 64).
  replace (a + a * inv * p) with (a * (p * inv + 1)) by ring.
  rewrite <- Z.mul_mod_idemp_r by lia.
  by rewrite Hinv, Z.mul_0_r.
Qed.

Local Abbreviation redc_m0 := (redc_m0 p inv).
Local Abbreviation redc_m1 := (redc_m1 p inv).

Lemma montgomery_reduce_rounds T :
  fold_left (montgomery_reduce_step p inv) (seq 0 2) T
  = T + redc_m0 T * p + redc_m1 T * 2 ^ 64 * p.
Proof.
  cbn [fold_left seq]. unfold montgomery_reduce_step.
  change (Z.shiftl 1 64 - 1) with (Z.ones 64).
  rewrite !Z.land_ones by lia. rewrite !Z.shiftr_div_pow2 by lia.
  rewrite !Z.shiftl_1_l.
  change (64 * Z.of_nat 0) with 0. change (64 * Z.of_nat 1) with 64.
  rewrite Z.pow_0_r, Z.div_1_r, !Z.mul_1_r.
  fold (redc_m0 T). fold (redc_m1 T). ring.
Qed.

Lemma montgomery_reduce_rounds_divisible T :
  (T + redc_m0 T * p + redc_m1 T * 2 ^ 64 * p) mod 2 ^ 128 = 0.
Proof.
  pose proof (round_zeroes_limb T) as H0. fold (redc_m0 T) in H0.
  apply Z.div_exact in H0; [|lia].
  set (r1 := T + redc_m0 T * p) in *.
  pose proof (round_zeroes_limb (r1 / 2 ^ 64)) as H1.
  fold r1 in H1. change (redc_m1 T) with
    (((r1 / 2 ^ 64) mod 2 ^ 64 * inv) mod 2 ^ 64).
  set (m1 := ((r1 / 2 ^ 64) mod 2 ^ 64 * inv) mod 2 ^ 64) in *.
  apply Z.div_exact in H1; [|lia].
  set (q2 := (r1 / 2 ^ 64 + m1 * p) / 2 ^ 64) in *.
  replace (r1 + m1 * 2 ^ 64 * p) with (q2 * 2 ^ 128).
  - apply Z.mod_mul. lia.
  - change (2 ^ 128) with (2 ^ 64 * 2 ^ 64). lia.
Qed.

Lemma montgomery_reduce_pre_exact T :
  montgomery_reduce_pre T p inv * 2 ^ 128
  = T + redc_m0 T * p + redc_m1 T * 2 ^ 64 * p.
Proof.
  unfold montgomery_reduce_pre.
  rewrite montgomery_reduce_rounds, Z.shiftr_div_pow2 by lia.
  pose proof (montgomery_reduce_rounds_divisible T) as H.
  apply Z.div_exact in H; lia.
Qed.

Lemma redc_m0_bound T : 0 <= redc_m0 T < 2 ^ 64.
Proof. apply mod64_bound. Qed.

Lemma redc_m1_bound T : 0 <= redc_m1 T < 2 ^ 64.
Proof. apply mod64_bound. Qed.

Lemma montgomery_reduce_pre_bound T :
  0 < p → 0 <= T < p * 2 ^ 128 →
  0 <= montgomery_reduce_pre T p inv < 2 * p.
Proof.
  intros Hp HT. pose proof (montgomery_reduce_pre_exact T) as He.
  pose proof (redc_m0_bound T) as H0. pose proof (redc_m1_bound T) as H1.
  assert (0 <= redc_m0 T * p <= (2 ^ 64 - 1) * p) by nia.
  assert (0 <= redc_m1 T * p <= (2 ^ 64 - 1) * p) by nia.
  replace (redc_m1 T * 2 ^ 64 * p) with (2 ^ 64 * (redc_m1 T * p)) in He
    by ring.
  change (2 ^ 128) with 340282366920938463463374607431768211456 in *.
  change (2 ^ 64) with 18446744073709551616 in *.
  lia.
Qed.

(** [montgomery_reduce T] is the representative in [[0, p)] of
    [T * R^-1], stated without an inverse: multiplied back by
    [R = 2^128] it is congruent to [T]. *)
Lemma montgomery_reduce_spec T :
  0 < p → 0 <= T < p * 2 ^ 128 →
  0 <= montgomery_reduce T p inv < p
  ∧ (montgomery_reduce T p inv * 2 ^ 128) mod p = T mod p.
Proof.
  intros Hp HT. unfold montgomery_reduce. split.
  - by apply cond_sub_range, montgomery_reduce_pre_bound.
  - rewrite <- Z.mul_mod_idemp_l, cond_sub_mod, Z.mul_mod_idemp_l by lia.
    rewrite montgomery_reduce_pre_exact.
    replace (T + redc_m0 T * p + redc_m1 T * 2 ^ 64 * p)
      with (T + (redc_m0 T + redc_m1 T * 2 ^ 64) * p) by ring.
    apply Z.mod_add. lia.
Qed.

(** With an explicit inverse of [R] modulo [p]. *)
Lemma montgomery_reduce_inverse T R_inv :
  0 < p → (2 ^ 128 * R_inv) mod p = 1 → 0 <= T < p * 2 ^ 128 →
  montgomery_reduce T p inv = (T * R_inv) mod p.
Proof.
  intros Hp HR HT.
  destruct (montgomery_reduce_spec T Hp HT) as [Hrange Hcong].
  transitivity ((montgomery_reduce T p inv * (2 ^ 128 * R_inv)) mod p).
  - rewrite <- Z.mul_mod_idemp_r, HR, Z.mul_1_r by lia.
    symmetry. by apply Z.mod_small.
  - rewrite Z.mul_assoc, <- Z.mul_mod_idemp_l, Hcong by lia.
    by rewrite Z.mul_mod_idemp_l by lia.
Qed.
End Reduce.

Lemma lor_shiftl_64 lo hi :
  0 <= lo < 2 ^ 64 → Z.lor lo (Z.shiftl hi 64) = lo + hi * 2 ^ 64.
Proof.
  intros Hlo.
  assert (Hdisj : Z.land lo (Z.shiftl hi 64) = 0).
  { apply Z.bits_inj'. intros n Hn. rewrite Z.land_spec, Z.bits_0.
    destruct (Z.lt_ge_cases n 64).
    - rewrite Z.shiftl_spec_low by lia. apply andb_false_r.
    - rewrite <- (Z.mod_small lo (2 ^ 64)) by done.
      by rewrite Z.mod_pow2_bits_high by lia. }
  rewrite <- Z.lxor_lor, <- Z.add_nocarry_lxor by done.
  by rewrite Z.shiftl_mul_pow2 by lia.
Qed.

Lemma limbs_value_bound l2 l3 :
  limb l2 → limb l3 → 0 <= Z.lor l2 (Z.shiftl l3 64) < 2 ^ 128.
Proof.
  unfold limb. intros H2 H3. rewrite lor_shiftl_64 by done.
  change (2 ^ 128) with (2 ^ 64 * 2 ^ 64). nia.
Qed.

(** ** The limb-level rounds on a four-limb accumulator *)

Section Limbs.
Variables p0 p1 inv : Z.
Hypothesis Hinv0 : (p0 * inv + 1) mod 2 ^ 64 = 0.

Lemma limb_cancel_split t :
  Z.land (t + Z.land (Z.land (t * inv) mask64 * p0) mask64 + 0) mask64 = 0.
Proof.
  rewrite !land_mask64, Z.add_0_r.
  rewrite Z.mul_mod_idemp_l, Z.add_mod_idemp_r by lia.
  replace (t + t * inv * p0) with (t * (p0 * inv + 1)) by ring.
  rewrite <- Z.mul_mod_idemp_r by lia. by rewrite Hinv0, Z.mul_0_r.
Qed.

Lemma limb_cancel_whole t :
  Z.land (t + Z.land (t * inv) mask64 * p0 + 0) mask64 = 0.
Proof.
  rewrite !land_mask64, Z.add_0_r.
  rewrite <- (Z.add_mod_idemp_r t ((t * inv) mod 2 ^ 64 * p0)) by lia.
  rewrite Z.mul_mod_idemp_l, Z.add_mod_idemp_r by lia.
  replace (t + t * inv * p0) with (t * (p0 * inv + 1)) by ring.
  rewrite <- Z.mul_mod_idemp_r by lia. by rewrite Hinv0, Z.mul_0_r.
Qed.

Lemma limb_land x : limb (Z.land x mask64).
Proof. rewrite land_mask64. apply mod64_bound. Qed.

Ltac round_shape :=
  cbn; rewrite ?limb_cancel_split, ?limb_cancel_whole;
  eexists _, _; split; [reflexivity | split; apply limb_land].

Lemma fixed_redc_round_0 t0 t1 t2 t3 :
  ∃ l1 l2, fixed_redc_round [p0; p1] inv [t0; t1; t2; t3] 0
           = Some [0; l1; l2; t3] ∧ limb l1 ∧ limb l2.
Proof. round_shape. Qed.

Lemma fixed_redc_round_1 t0 t1 t2 t3 :
  ∃ l2 l3, fixed_redc_round [p0; p1] inv [t0; t1; t2; t3] 1
           = Some [t0; 0; l2; l3] ∧ limb l2 ∧ limb l3.
Proof. round_shape. Qed.

Lemma debug_redc_round_0 t0 t1 t2 t3 :
  ∃ l1 l2, debug_redc_round [p0; p1] inv [t0; t1; t2; t3] 0
           = Some [0; l1; l2; t3] ∧ limb l1 ∧ limb l2.
Proof. round_shape. Qed.

Lemma debug_redc_round_1 t0 t1 t2 t3 :
  ∃ l2 l3, debug_redc_round [p0; p1] inv [t0; t1; t2; t3] 1
           = Some [t0; 0; l2; l3] ∧ limb l2 ∧ limb l3.
Proof. round_shape. Qed.

(** On four limbs the length test of [fixed_redc] always succeeds, so
    its round is the round of [montgomery_mult]. *)
Lemma montgomery_mult_round_fixed t0 t1 t2 t3 i :
  (i < 2)%nat →
  montgomery_mult_round [p0; p1] inv [t0; t1; t2; t3] i
  = fixed_redc_round [p0; p1] inv [t0; t1; t2; t3] i.
Proof. intros Hi. destruct i as [|[|i]]; [reflexivity | reflexivity | lia]. Qed.
End Limbs.

Lemma inv_low_limb p inv :
  (p * inv + 1) mod 2 ^ 64 = 0 → (Z.land p mask64 * inv + 1) mod 2 ^ 64 = 0.
Proof.
  intros H. rewrite land_mask64.
  by rewrite <- Z.add_mod_idemp_l, Z.mul_mod_idemp_l, Z.add_mod_idemp_l by lia.
Qed.

Section Rounds.
Variables p inv : Z.
Hypothesis Hinv : (p * inv + 1) mod 2 ^ 64 = 0.

Lemma fixed_redc_rounds_shape t :
  ∃ l1 l2 l2' l3 t3,
    fixed_redc_rounds 1 t p inv = Some [0; l1; l2; t3]
    ∧ fixed_redc_rounds 2 t p inv = Some [0; 0; l2'; l3]
    ∧ limb l2' ∧ limb l3.
Proof.
  pose proof (inv_low_limb _ _ Hinv) as H0.
  unfold fixed_redc_rounds. cbn [split_limbs seq foldlM].
  set (t0 := Z.land t mask64). set (t1 := Z.land (Z.shiftr t 64) mask64).
  set (t2 := Z.land (Z.shiftr (Z.shiftr t 64) 64) mask64).
  set (t3 := Z.land (Z.shiftr (Z.shiftr (Z.shiftr t 64) 64) 64) mask64).
  set (q0 := Z.land p mask64) in *. set (q1 := Z.land (Z.shiftr p 64) mask64).
  destruct (fixed_redc_round_0 q0 q1 inv H0 t0 t1 t2 t3)
    as (l1 & l2 & -> & _ & _).
  destruct (fixed_redc_round_1 q0 q1 inv H0 0 l1 l2 t3)
    as (l2' & l3 & E1 & ? & ?).
  exists l1, l2, l2', l3, t3. cbn [mbind option_bind]. by rewrite E1.
Qed.

Lemma debug_redc_rounds_shape t :
  ∃ l1 l2 l2' l3 t3,
    debug_redc_rounds 1 t p inv = Some [0; l1; l2; t3]
    ∧ debug_redc_rounds 2 t p inv = Some [0; 0; l2'; l3]
    ∧ limb l2' ∧ limb l3.
Proof.
  pose proof (inv_low_limb _ _ Hinv) as H0.
  unfold debug_redc_rounds. cbn [split_limbs seq foldlM].
  set (t0 := Z.land t mask64). set (t1 := Z.land (Z.shiftr t 64) mask64).
  set (t2 := Z.land (Z.shiftr (Z.shiftr t 64) 64) mask64).
  set (t3 := Z.land (Z.shiftr (Z.shiftr (Z.shiftr t 64) 64) 64) mask64).
  set (q0 := Z.land p mask64) in *. set (q1 := Z.land (Z.shiftr p 64) mask64).
  destruct (debug_redc_round_0 q0 q1 inv H0 t0 t1 t2 t3)
    as (l1 & l2 & -> & _ & _).
  destruct (debug_redc_round_1 q0 q1 inv H0 0 l1 l2 t3)
    as (l2' & l3 & E1 & ? & ?).
  exists l1, l2, l2', l3, t3. cbn [mbind option_bind]. by rewrite E1.
Qed.

Lemma montgomery_mult_rounds_fixed k a b :
  (k <= 2)%nat →
  montgomery_mult_rounds k a b p inv = fixed_redc_rounds k (a * b) p inv.
Proof.
  intros Hk. pose proof (inv_low_limb _ _ Hinv) as H0.
  unfold montgomery_mult_rounds, fixed_redc_rounds.
  cbn [split_limbs pad_limbs length Nat.sub replicate app].
  set (t0 := Z.land (a * b) mask64).
  set (t1 := Z.land (Z.shiftr (a * b) 64) mask64).
  set (t2 := Z.land (Z.shiftr (Z.shiftr (a * b) 64) 64) mask64).
  set (t3 := Z.land (Z.shiftr (Z.shiftr (Z.shiftr (a * b) 64) 64) 64) mask64).
  set (q0 := Z.land p mask64) in *. set (q1 := Z.land (Z.shiftr p 64) mask64).
  destruct k as [|[|[|k]]]; [reflexivity | reflexivity | | lia].
  cbn [seq foldlM]. rewrite montgomery_mult_round_fixed by lia.
  destruct (fixed_redc_round_0 q0 q1 inv H0 t0 t1 t2 t3)
    as (l1 & l2 & -> & _ & _).
  cbn [mbind option_bind]. by rewrite montgomery_mult_round_fixed by lia.
Qed.

Lemma fixed_redc_zeroes_target t :
  zeroes_target (fun k => fixed_redc_rounds k t p inv).
Proof.
  destruct (fixed_redc_rounds_shape t)
    as (l1 & l2 & l2' & l3 & t3 & E1 & E2 & _).
  intros [|[|i]] Hi; [by eexists | by eexists | lia].
Qed.

Lemma debug_redc_zeroes_target t :
  zeroes_target (fun k => debug_redc_rounds k t p inv).
Proof.
  destruct (debug_redc_rounds_shape t)
    as (l1 & l2 & l2' & l3 & t3 & E1 & E2 & _).
  intros [|[|i]] Hi; [by eexists | by eexists | lia].
Qed.

Lemma montgomery_mult_zeroes_target a b :
  zeroes_target (fun k => montgomery_mult_rounds k a b p inv).
Proof.
  intros i Hi. rewrite montgomery_mult_rounds_fixed by lia.
  by apply fixed_redc_zeroes_target.
Qed.

Lemma fixed_redc_range t :
  0 < p → 2 ^ 128 <= 2 * p →
  ∃ r, fixed_redc t p inv = Some r ∧ 0 <= r < p.
Proof.
  intros Hp Hp2.
  destruct (fixed_redc_rounds_shape t)
    as (l1 & l2 & l2' & l3 & t3 & _ & E2 & H2 & H3).
  unfold fixed_redc. rewrite E2. cbn. eexists. split; [reflexivity|].
  apply cond_sub_range. pose proof (limbs_value_bound l2' l3 H2 H3). lia.
Qed.
End Rounds.

(** ** The constants *)

Lemma p_value : Fp128.p = 2 ^ 128 - 2 ^ 108 + 1.
Proof. reflexivity. Qed.

Lemma p_low_limb : Fp128.p mod 2 ^ 64 = 1.
Proof. reflexivity. Qed.

Lemma INV_cancels_p : (Fp128.p * Fp128.INV + 1) mod 2 ^ 64 = 0.
Proof. reflexivity. Qed.

Lemma inv_value : Fp128.inv = Some Fp128.INV.
Proof. vm_compute. reflexivity. Qed.

Lemma inv_is_INV inv : Fp128.inv = Some inv → inv = Fp128.INV.
Proof. rewrite inv_value. congruence. Qed.

(** ** Round invariant and final range *)

(** C3: for all operands [a, b < p] and [inv = (-p)^-1 mod 2^64], after
    round [i] of the reduction the limb [t[i]] is exactly zero, for
    [i = 0] and [i = 1], in [montgomery_mult] (correct_montgomery_ref.py)
    and in [debug_redc] run on [t = a * b] (redc_debug.py). *)
Theorem redc_rounds_zero_target_limb a b inv :
  Fp128.inv = Some inv →
  0 <= a < Fp128.p → 0 <= b < Fp128.p →
  zeroes_target (fun k => montgomery_mult_rounds k a b Fp128.p inv)
  ∧ zeroes_target (fun k => debug_redc_rounds k (a * b) Fp128.p inv).
Proof.
  intros ->%inv_is_INV _ _. split.
  - apply montgomery_mult_zeroes_target, INV_cancels_p.
  - apply debug_redc_zeroes_target, INV_cancels_p.
Qed.

Lemma redc_rounds_zero_target_limb_witness :
  zeroes_target
    (fun k => montgomery_mult_rounds k 5 7 Fp128.p Fp128.INV)
  ∧ zeroes_target (fun k => debug_redc_rounds k (5 * 7) Fp128.p Fp128.INV).
Proof.
  apply (redc_rounds_zero_target_limb 5 7 Fp128.INV).
  - vm_compute. reflexivity.
  - vm_compute. split; [discriminate | reflexivity].
  - vm_compute. split; [discriminate | reflexivity].
Defined.

(** C4: for all operands [a, b < p] the exact value
    [(a*b + m0*p + m1*2^64*p) / 2^128] that [montgomery_reduce] holds
    before its conditional subtraction is below [2p], so the single
    conditional subtraction leaves a value in [[0, p)]; the conditional
    subtraction that ends [fixed_redc] also leaves a value in [[0, p)]. *)
Theorem redc_pre_subtraction_below_2p a b inv :
  Fp128.inv = Some inv →
  0 <= a < Fp128.p → 0 <= b < Fp128.p →
  let T := a * b in
  let m0 := redc_m0 Fp128.p inv T in
  let m1 := redc_m1 Fp128.p inv T in
  let pre := (T + m0 * Fp128.p + m1 * 2 ^ 64 * Fp128.p) / 2 ^ 128 in
  montgomery_reduce_pre T Fp128.p inv = pre
  ∧ 0 <= pre < 2 * Fp128.p
  ∧ montgomery_reduce T Fp128.p inv = cond_sub pre Fp128.p
  ∧ 0 <= montgomery_reduce T Fp128.p inv < Fp128.p
  ∧ ∃ r, fixed_redc T Fp128.p inv = Some r ∧ 0 <= r < Fp128.p.
Proof.
  intros ->%inv_is_INV Ha Hb T m0 m1 pre.
  assert (HT : 0 <= T < Fp128.p * 2 ^ 128).
  { subst T. rewrite p_value in *. nia. }
  assert (Hpre : montgomery_reduce_pre T Fp128.p Fp128.INV = pre).
  { subst pre m0 m1.
    rewrite <- (montgomery_reduce_pre_exact _ _ INV_cancels_p).
    symmetry. apply Z.div_mul. lia. }
  assert (Hp : 0 < Fp128.p) by (rewrite p_value; lia).
  split; [done|]. split.
  { rewrite <- Hpre. by apply montgomery_reduce_pre_bound, HT; [apply INV_cancels_p|]. }
  split; [unfold montgomery_reduce; by rewrite Hpre|]. split.
  { by apply montgomery_reduce_spec, HT; [apply INV_cancels_p|]. }
  apply fixed_redc_range; [apply INV_cancels_p | done | rewrite p_value; lia].
Qed.

Lemma redc_pre_subtraction_below_2p_witness :
  let T := 5 * 7 in
  let m0 := redc_m0 Fp128.p Fp128.INV T in
  let m1 := redc_m1 Fp128.p Fp128.INV T in
  let pre := (T + m0 * Fp128.p + m1 * 2 ^ 64 * Fp128.p) / 2 ^ 128 in
  montgomery_reduce_pre T Fp128.p Fp128.INV = pre
  ∧ 0 <= pre < 2 * Fp128.p
  ∧ montgomery_reduce T Fp128.p Fp128.INV = cond_sub pre Fp128.p
  ∧ 0 <= montgomery_reduce T Fp128.p Fp128.INV < Fp128.p
  ∧ ∃ r, fixed_redc T Fp128.p Fp128.INV = Some r ∧ 0 <= r < Fp128.p.
Proof.
  apply (redc_pre_subtraction_below_2p 5 7 Fp128.INV).
  - vm_compute. reflexivity.
  - vm_compute. split; [discriminate | reflexivity].
  - vm_compute. split; [discriminate | reflexivity].
Defined.

(** ** Carries that the four-limb accumulator cannot hold *)

(** C1: [montgomery_mult] evaluated at [a = b = 2^127 - 1] (both below
    [p]), with [r] and [inv] derived as in correct_montgomery_ref.py: the
    value returned is not [(a * b * R^-1) mod p]. *)
Theorem montgomery_mult_loses_carries :
  let a := 2 ^ 127 - 1 in
  0 <= a < Fp128.p
  ∧ Fp128.inv = Some Fp128.INV
  ∧ Fp128.R_inv = Some 340281717884140631619742386188451840000
  ∧ montgomery_mult a a Fp128.p Fp128.R Fp128.INV
    = Some 85069942693436784003764686540916129791
  ∧ (a * a * 340281717884140631619742386188451840000) mod Fp128.p
    = 85070267211990442448938213770646257662.
Proof. vm_compute. repeat split; discriminate. Qed.

(** C2: in [fixed_redc] run on [t = a * b] with [a = b = 2^127 - 1], the
    carry that round 0 adds into [t[2]] and the carry that round 1 adds
    into [t[3]] both make the sum reach [2^64], so the mask applied at
    that position discards a carry of 1 in each round. *)
Theorem fixed_redc_final_carry_overflows :
  let a := 2 ^ 127 - 1 in
  let t := a * a in
  let p_limbs := split_limbs 2 Fp128.p in
  0 <= a < Fp128.p
  ∧ add_mp p_limbs Fp128.INV (split_limbs 4 t) 0
    = Some ([0; 17592186044417; 18446744073709551615; 4611686018427387903],
            18446726481523507199)
  ∧ Z.shiftr (18446744073709551615 + 18446726481523507199) 64 = 1
  ∧ fixed_redc_rounds 1 t Fp128.p Fp128.INV
    = Some [0; 17592186044417; 18446726481523507198; 4611686018427387903]
  ∧ add_mp p_limbs Fp128.INV
      [0; 17592186044417; 18446726481523507198; 4611686018427387903] 1
    = Some ([0; 0; 18446744073709551615; 4611686018427387903],
            18446708889354239999)
  ∧ Z.shiftr (4611686018427387903 + 18446708889354239999) 64 = 1
  ∧ fixed_redc_rounds 2 t Fp128.p Fp128.INV
    = Some [0; 0; 18446744073709551615; 4611650834072076286].
Proof. vm_compute. repeat split; discriminate. Qed.

(** C6: at [t = (2^127 - 1)^2 < p * 2^128] the three reductions return
    three different values. *)
Theorem reductions_disagree :
  let t := (2 ^ 127 - 1) * (2 ^ 127 - 1) in
  0 <= t < Fp128.p * 2 ^ 128
  ∧ fixed_redc t Fp128.p Fp128.INV
    = Some 85069942693436784003764686540916129791
  ∧ textbook_redc t Fp128.p Fp128.INV 64
    = Some 85069942693436784022211430614625681407
  ∧ montgomery_reduce t Fp128.p Fp128.INV
    = 85070267211990442448938213770646257662.
Proof. vm_compute. repeat split; discriminate. Qed.

(** ** Deriving INV *)

Lemma extended_gcd_step a b :
  extended_gcd a b
  = if a =? 0 then (b, 0, 1)
    else let '(gcd, x1, y1) := extended_gcd (b mod a) a in
         (gcd, y1 - (b / a) * x1, x1).
Proof.
  rewrite (extended_gcd_equation_1 a b).
  destruct (Z.eq_dec a 0), (Z.eqb_spec a 0); cbn; done.
Qed.

Lemma inv_p_value : Fp128.inv_p = Some (2 ^ 64 - 1).
Proof.
  unfold Fp128.inv_p, mod_inverse.
  change ((- Fp128.p) mod Z.shiftl 1 64) with 18446744073709551615.
  change (Z.shiftl 1 64) with 18446744073709551616.
  rewrite extended_gcd_step. cbn.
  change (18446744073709551616 mod 18446744073709551615) with 1.
  rewrite extended_gcd_step. cbn.
  change (18446744073709551615 mod 1) with 0.
  rewrite extended_gcd_step. reflexivity.
Qed.

(** C5: the inverse of [(-p) mod 2^64] is [2^64 - 1] because
    [p mod 2^64 = 1], and compute_montgomery_constants.py, the scripts that
    call [pow((-p) % (1 << 64), -1, 1 << 64)], verify_mont_math.py and
    test_montgomery.py all use that value; reference_montgomery.py
    derives [pow(p, -1, 1 << 64)], which is 1. *)
Theorem inv_derivations :
  Fp128.p mod 2 ^ 64 = 1
  ∧ ((- Fp128.p) * (2 ^ 64 - 1)) mod 2 ^ 64 = 1
  ∧ Fp128.inv_p = Some (2 ^ 64 - 1)
  ∧ Fp128.inv = Some (2 ^ 64 - 1)
  ∧ Fp128.INV = 2 ^ 64 - 1
  ∧ Fp128.mprime = 2 ^ 64 - 1
  ∧ Fp128.reference_inv = Some 1.
Proof.
  split; [reflexivity|]. split; [reflexivity|].
  split; [apply inv_p_value|]. vm_compute. by repeat split.
Qed.

(** ** Into Montgomery form and back *)

Lemma R_inv_value :
  Fp128.R_inv = Some 340281717884140631619742386188451840000.
Proof. vm_compute. reflexivity. Qed.

Lemma R2_value : Fp128.R2 = 82427712319755083633389905903615745.
Proof. vm_compute. reflexivity. Qed.

Lemma to_canonical_inverse e :
  0 <= e < Fp128.p →
  to_canonical e = (e * 340281717884140631619742386188451840000) mod Fp128.p.
Proof.
  intros He. unfold to_canonical.
  pose proof (montgomery_reduce_inverse Fp128.p Fp128.INV INV_cancels_p e
                340281717884140631619742386188451840000) as H.
  assert (H0 : 0 < Fp128.p) by reflexivity.
  assert (H1 : (2 ^ 128 * 340281717884140631619742386188451840000)
               mod Fp128.p = 1) by (vm_compute; reflexivity).
  apply (H H0 H1). rewrite p_value in *. lia.
Qed.

Lemma from_canonical_inverse x :
  0 <= x < Fp128.p →
  from_canonical x
  = (x * Fp128.R2 * 340281717884140631619742386188451840000) mod Fp128.p.
Proof.
  intros Hx. unfold from_canonical.
  pose proof (montgomery_reduce_inverse Fp128.p Fp128.INV INV_cancels_p
                (x * Fp128.R2) 340281717884140631619742386188451840000) as H.
  assert (H0 : 0 < Fp128.p) by reflexivity.
  assert (H1 : (2 ^ 128 * 340281717884140631619742386188451840000)
               mod Fp128.p = 1) by (vm_compute; reflexivity).
  apply (H H0 H1).
  rewrite R2_value, p_value in *. nia.
Qed.

(** C7: for every canonical [x] in [[0, p)],
    [to_canonical (from_canonical x) = x]; reducing the constant [R]
    gives exactly 1, with [montgomery_reduce] and with the manual limb
    reduction of test_montgomery.py. *)
Theorem canonical_round_trip x :
  0 <= x < Fp128.p →
  to_canonical (from_canonical x) = x
  ∧ to_canonical Fp128.R = 1
  ∧ from_montgomery_manual Fp128.R Fp128.p Fp128.mprime = Some 1.
Proof.
  intros Hx. split; [|by vm_compute].
  rewrite to_canonical_inverse.
  - rewrite from_canonical_inverse by done.
    rewrite Z.mul_mod_idemp_l by (rewrite p_value; lia).
    set (K := 340281717884140631619742386188451840000).
    replace (x * Fp128.R2 * K * K) with (x * (Fp128.R2 * K * K)) by ring.
    rewrite <- Z.mul_mod_idemp_r by (rewrite p_value; lia).
    change ((Fp128.R2 * K * K) mod Fp128.p) with 1.
    rewrite Z.mul_1_r. by apply Z.mod_small.
  - rewrite from_canonical_inverse by done.
    apply Z.mod_pos_bound. rewrite p_value. lia.
Qed.

Lemma canonical_round_trip_witness :
  to_canonical (from_canonical 6) = 6
  ∧ to_canonical Fp128.R = 1
  ∧ from_montgomery_manual Fp128.R Fp128.p Fp128.mprime = Some 1.
Proof.
  apply (canonical_round_trip 6).
  vm_compute. split; [discriminate | reflexivity].
Defined.

(** ** The base root of unity *)

Lemma pow_mod_spec base exp modulus :
  modulus ≠ 0 → pow_mod base exp modulus = base ^ exp mod modulus.
Proof. apply Zpow_mod_correct. Qed.

(** C8: [cpp_omega_32 ^ (2^32)] is 1 modulo [p] and
    [cpp_omega_32 ^ (2^31)] is [p - 1]; hence no [2^k] with [k < 32] is an
    exponent that gives 1. *)
Theorem omega_32_primitive :
  pow_mod Fp128.cpp_omega_32 (Z.shiftl 1 32) Fp128.p = 1
  ∧ pow_mod Fp128.cpp_omega_32 (Z.shiftl 1 31) Fp128.p = Fp128.p - 1
  ∧ Forall (fun k => pow_mod Fp128.cpp_omega_32 (2 ^ Z.of_nat k) Fp128.p ≠ 1)
           (seq 0 32).
Proof.
  split; [by vm_compute|]. split; [by vm_compute|].
  apply Forall_forall. intros k Hk.
  assert (H : forallb
    (fun k => negb (pow_mod Fp128.cpp_omega_32 (2 ^ Z.of_nat k) Fp128.p =? 1))
    (seq 0 32) = true) by (vm_compute; reflexivity).
  rewrite forallb_forall in H. specialize (H k).
  apply list_elem_of_In in Hk. specialize (H Hk).
  apply negb_true_iff, Z.eqb_neq in H. done.
Qed.

(** ** The lookup table of roots *)

Lemma foldl_insert_lookup (f : Z → Z) (l : list Z) (m : gmap Z Z) (n : Z) :
  foldl (fun r k => <[k := f k]> r) m l !! n
  = if bool_decide (n ∈ l) then Some (f n) else m !! n.
Proof.
  revert m. induction l as [|a l IH]; intros m; cbn [foldl].
  - by rewrite bool_decide_eq_false_2 by apply not_elem_of_nil.
  - rewrite IH. destruct (decide (n ∈ l)) as [Hl|Hl].
    + rewrite !bool_decide_eq_true_2; [done | by right | done].
    + rewrite (bool_decide_eq_false_2 _ Hl).
      destruct (decide (n = a)) as [->|Hna].
      * rewrite lookup_insert_eq. by rewrite bool_decide_eq_true_2 by left.
      * rewrite lookup_insert_ne by done.
        rewrite bool_decide_eq_false_2; [done|].
        by intros [?|?]%elem_of_cons.
Qed.

Lemma roots_lookup n :
  roots !! n = if bool_decide (n ∈ sizes) then Some (omega_n n) else None.
Proof. unfold roots. by rewrite foldl_insert_lookup, lookup_empty. Qed.

Lemma le_bytes_length n x : length (le_bytes n x) = n.
Proof. revert x. induction n as [|n IH]; intros x; cbn; [done | by rewrite IH]. Qed.

Lemma le_bytes_decode n x :
  foldr (fun b acc => b + 256 * acc) 0 (le_bytes n x) = x mod 256 ^ Z.of_nat n.
Proof.
  revert x. induction n as [|n IH]; intros x.
  - cbn. by rewrite Z.mod_1_r.
  - cbn [le_bytes foldr]. rewrite IH, Nat2Z.inj_succ, Z.pow_succ_r by lia.
    rewrite Z.rem_mul_r; [done | lia |]. apply Z.pow_pos_nonneg; lia.
Qed.

Lemma from_bytes_le_to_bytes x :
  0 <= x < Fp128.p →
  (to_bytes x 16 ≫= from_bytes_le) = Some x.
Proof.
  intros Hx. unfold to_bytes.
  assert (x < 256 ^ Z.of_nat 16) by (rewrite p_value in Hx; cbn; lia).
  destruct (Z.leb_spec 0 x); [|lia]. destruct (Z.ltb_spec x (256 ^ Z.of_nat 16)); [|lia].
  cbn [andb mbind option_bind]. unfold from_bytes_le.
  rewrite le_bytes_length, le_bytes_decode, Z.mod_small by lia.
  destruct (Z.ltb_spec x Fp128.p); [done | lia].
Qed.

Lemma omega_n_range n : 0 <= omega_n n < Fp128.p.
Proof.
  unfold omega_n. rewrite pow_mod_spec by (rewrite p_value; lia).
  apply Z.mod_pos_bound. rewrite p_value. lia.
Qed.

Lemma root_for_spec n :
  root_for n = if bool_decide (n ∈ sizes) then Some (omega_n n) else None.
Proof.
  unfold root_for. rewrite roots_lookup. case_bool_decide; [|done].
  cbn [mbind option_bind]. apply from_bytes_le_to_bytes, omega_n_range.
Qed.

Lemma log_n_pow2 k : 0 <= k → log_n (2 ^ k) = k.
Proof.
  intros Hk. unfold log_n, bit_length.
  assert (0 < 2 ^ k) by (apply Z.pow_pos_nonneg; lia).
  destruct (Z.eqb_spec (2 ^ k) 0); [lia|].
  rewrite Z.abs_eq, Z.log2_pow2 by lia. lia.
Qed.

(** The exponent [2**(32 - log_n)] is [2^32 / n]. *)
Lemma omega_n_pow2 k :
  0 <= k <= 32 →
  omega_n (2 ^ k) = pow_mod Fp128.cpp_omega_32 (2 ^ 32 / 2 ^ k) Fp128.p.
Proof.
  intros Hk. unfold omega_n. rewrite log_n_pow2 by lia.
  by rewrite Z.pow_sub_r by lia.
Qed.

Lemma sizes_spec n : n ∈ sizes ↔ ∃ k, 1 <= k <= 16 ∧ n = 2 ^ k.
Proof.
  split.
  - intros Hn. apply list_elem_of_In in Hn. cbn in Hn.
    let rec go k :=
      lazymatch goal with
      | H : _ ∨ _ |- _ =>
          destruct H as [<- | H]; [exists k; split; [lia | reflexivity] |];
          let k' := eval vm_compute in (k + 1) in go k'
      | H : False |- _ => destruct H
      end in go 1.
  - intros (k & Hk & ->).
    assert (Hc : k = 1 ∨ k = 2 ∨ k = 3 ∨ k = 4 ∨ k = 5 ∨ k = 6 ∨ k = 7
                 ∨ k = 8 ∨ k = 9 ∨ k = 10 ∨ k = 11 ∨ k = 12 ∨ k = 13
                 ∨ k = 14 ∨ k = 15 ∨ k = 16) by lia.
    apply list_elem_of_In.
    repeat (destruct Hc as [-> | Hc]; [cbn; auto 20|]). subst k. cbn; auto 20.
Qed.

(** C9, as the table has it: [root_for] returns [omega^(2^32/n)] for
    every power of two [n] from 2 to 2^16, and no value when [n] is not a
    power of two, when [n = 1] and when [n] exceeds 2^20. *)
Theorem root_for_table :
  (∀ n k, 1 <= k <= 16 → n = 2 ^ k →
     root_for n = Some (pow_mod Fp128.cpp_omega_32 (2 ^ 32 / n) Fp128.p))
  ∧ (∀ n, ¬ power_of_two n ∨ n = 1 ∨ 2 ^ 20 < n → root_for n = None).
Proof.
  split.
  - intros n k Hk ->. rewrite root_for_spec.
    rewrite bool_decide_eq_true_2 by (apply sizes_spec; eauto).
    by rewrite omega_n_pow2 by lia.
  - intros n Hn. rewrite root_for_spec.
    rewrite bool_decide_eq_false_2; [done|].
    intros (k & Hk & ->)%sizes_spec. destruct Hn as [Hn | [Hn | Hn]].
    + apply Hn. exists k. split; [lia | done].
    + assert (2 ^ 1 <= 2 ^ k) by (apply Z.pow_le_mono_r; lia). lia.
    + assert (2 ^ k <= 2 ^ 16) by (apply Z.pow_le_mono_r; lia). lia.
Qed.

Lemma root_for_table_witness :
  root_for (2 ^ 4)
  = Some (pow_mod Fp128.cpp_omega_32 (2 ^ 32 / 2 ^ 4) Fp128.p)
  ∧ root_for (2 ^ 21) = None.
Proof.
  split.
  - apply (proj1 root_for_table (2 ^ 4) 4); [lia | reflexivity].
  - apply (proj2 root_for_table (2 ^ 21)). right. right. reflexivity.
Defined.

(** C9 as stated fails: 1 and 2^32 are powers of two between 1 and 2^32,
    and [root_for] has no value for them. *)
Lemma root_for_rejects_supported_sizes :
  root_for 1 ≠ Some (pow_mod Fp128.cpp_omega_32 (2 ^ 32 / 1) Fp128.p)
  ∧ root_for (2 ^ 32)
    ≠ Some (pow_mod Fp128.cpp_omega_32 (2 ^ 32 / 2 ^ 32) Fp128.p).
Proof. rewrite !root_for_spec. split; vm_compute; discriminate. Qed.

(** ** Multiplicative order of the table entries *)

Section Order.
Variable p : Z.
Hypothesis Hp : 1 < p.

Lemma pow_one_mul x j u :
  0 <= j → 0 <= u → x ^ j mod p = 1 → x ^ (j * u) mod p = 1.
Proof.
  intros Hj Hu H. rewrite Z.pow_mul_r, Zpower_mod, H by lia.
  rewrite Z.pow_1_l by lia. apply Z.mod_1_l. lia.
Qed.

(** If [x] has an order dividing [2^(k+1)] and some positive exponent
    below [2^(k+1)] gives 1, then already [2^k] gives 1. *)
Lemma order_halves (k : nat) :
  ∀ x j, x ^ (2 ^ Z.of_nat (S k)) mod p = 1 →
         0 < j < 2 ^ Z.of_nat (S k) → x ^ j mod p = 1 →
         x ^ (2 ^ Z.of_nat k) mod p = 1.
Proof.
  induction k as [|k IH]; intros x j Hx Hj H1.
  - change (2 ^ Z.of_nat 1) with 2 in Hj. by replace j with 1 in H1 by lia.
  - assert (E : ∀ m : nat, 2 ^ Z.of_nat (S m) = 2 * 2 ^ Z.of_nat m).
    { intros m. rewrite Nat2Z.inj_succ. apply Z.pow_succ_r. lia. }
    assert (0 < 2 ^ Z.of_nat k) by (apply Z.pow_pos_nonneg; lia).
    destruct (Z.even j) eqn:Heven.
    + apply Z.even_spec in Heven as [j' ->].
      rewrite (E k), Z.pow_mul_r by lia.
      apply (IH (x ^ 2) j').
      * rewrite <- Z.pow_mul_r, <- E by lia. done.
      * rewrite (E (S k)) in Hj. lia.
      * rewrite <- Z.pow_mul_r by lia. done.
    + assert (Hodd : Z.odd j = true) by (by rewrite <- Z.negb_even, Heven).
      apply Z.odd_spec in Hodd as [j' ->].
      set (h := 2 ^ Z.of_nat (S k)) in *.
      assert (0 < h) by (apply Z.pow_pos_nonneg; lia).
      assert (Hfull : x ^ ((2 * j' + 1) * h) mod p = 1)
        by (apply pow_one_mul; [lia | lia | done]).
      replace ((2 * j' + 1) * h) with (2 ^ Z.of_nat (S (S k)) * j' + h)
        in Hfull by (rewrite (E (S k)); fold h; ring).
      rewrite Z.pow_add_r in Hfull by lia.
      rewrite <- Z.mul_mod_idemp_l in Hfull by lia.
      rewrite pow_one_mul in Hfull by (done || lia).
      by rewrite Z.mul_1_l in Hfull.
Qed.

Lemma order_exactly_two_power x k :
  1 <= k → x ^ (2 ^ k) mod p = 1 → x ^ (2 ^ (k - 1)) mod p ≠ 1 →
  ∀ j, 0 < j < 2 ^ k → x ^ j mod p ≠ 1.
Proof.
  intros Hk Hfull Hhalf j Hj H1. apply Hhalf.
  replace k with (Z.of_nat (S (Z.to_nat (k - 1)))) in Hj, Hfull by lia.
  replace (k - 1) with (Z.of_nat (Z.to_nat (k - 1))) by lia.
  by apply (order_halves _ x j).
Qed.
End Order.

Lemma p_gt_1 : 1 < Fp128.p.
Proof. reflexivity. Qed.

Lemma table_entries_checked :
  forallb
    (fun k =>
       (pow_mod (omega_n (2 ^ k)) (2 ^ k) Fp128.p =? 1)
       && ((k =? 0)
           || negb (pow_mod (omega_n (2 ^ k)) (2 ^ k / 2) Fp128.p =? 1)))
    (map Z.of_nat (seq 0 33)) = true.
Proof. vm_compute. reflexivity. Qed.

Lemma table_entry_checked k :
  0 <= k <= 32 →
  pow_mod (omega_n (2 ^ k)) (2 ^ k) Fp128.p = 1
  ∧ (k ≠ 0 → pow_mod (omega_n (2 ^ k)) (2 ^ k / 2) Fp128.p ≠ 1).
Proof.
  intros Hk. pose proof table_entries_checked as H.
  rewrite forallb_forall in H.
  assert (Hin : In k (map Z.of_nat (seq 0 33))).
  { apply in_map_iff. exists (Z.to_nat k). split; [lia|]. apply in_seq. lia. }
  apply H in Hin. cbv beta in Hin. apply andb_prop in Hin as [H1 H2].
  split; [by apply Z.eqb_eq|].
  intros Hk0. apply orb_prop in H2 as [H2|H2].
  - apply Z.eqb_eq in H2. lia.
  - by apply negb_true_iff, Z.eqb_neq in H2.
Qed.

(** The checks that precompute_roots.py prints for each size pass. *)
Lemma sizes_checks_pass :
  Forall (fun n => root_test n = 1 ∧ primitive n = true) sizes.
Proof.
  apply Forall_forall. intros n Hn.
  assert (H : forallb (fun n => (root_test n =? 1) && primitive n) sizes
              = true) by (vm_compute; reflexivity).
  rewrite forallb_forall in H. apply list_elem_of_In in Hn.
  apply H, andb_prop in Hn as [H1 H2]. by apply Z.eqb_eq in H1.
Qed.

(** C10: for every size [n = 2^k] with [k <= 32] the entry
    [omega_n = omega^(2^32/n)] has order exactly [n]: its [n]-th power is
    1 modulo [p], its [(n/2)]-th power is not 1 when [n > 1], and so no
    positive exponent below [n] gives 1; for the sizes of the table the
    script's own [primitive] flag stays true. *)
Theorem table_entry_order n k :
  0 <= k <= 32 → n = 2 ^ k →
  pow_mod (omega_n n) n Fp128.p = 1
  ∧ (1 < n → pow_mod (omega_n n) (n / 2) Fp128.p ≠ 1)
  ∧ (∀ j, 0 < j < n → pow_mod (omega_n n) j Fp128.p ≠ 1)
  ∧ (n ∈ sizes → root_test n = 1 ∧ primitive n = true).
Proof.
  intros Hk ->. destruct (table_entry_checked k Hk) as [Hfull Hhalf].
  assert (Hk0 : 1 < 2 ^ k → k ≠ 0) by (intros ? ->; lia).
  split; [done|]. split; [auto|]. split.
  - intros j Hj.
    assert (k ≠ 0) by (intros ->; change (2 ^ 0) with 1 in Hj; lia).
    rewrite pow_mod_spec in * by (rewrite p_value; lia).
    apply (order_exactly_two_power Fp128.p p_gt_1 _ k); [lia | done | | done].
    replace (2 ^ (k - 1)) with (2 ^ k / 2); [auto|].
    replace k with (k - 1 + 1) at 1 by lia.
    rewrite Z.pow_add_r, Z.pow_1_r by lia. apply Z.div_mul. lia.
  - intros Hn. pose proof sizes_checks_pass as H.
    rewrite Forall_forall in H. by apply H.
Qed.

Lemma table_entry_order_witness :
  pow_mod (omega_n 8) 8 Fp128.p = 1
  ∧ (1 < 8 → pow_mod (omega_n 8) (8 / 2) Fp128.p ≠ 1)
  ∧ (∀ j, 0 < j < 8 → pow_mod (omega_n 8) j Fp128.p ≠ 1)
  ∧ (8 ∈ sizes → root_test 8 = 1 ∧ primitive 8 = true).
Proof.
  apply (table_entry_order 8 3).
  - lia.
  - reflexivity.
Defined.

(** * Further properties of the scripts *)

(** ** The sibling limb reductions are one function *)

Lemma foldlM_ext {A B : Type} (f g : A → B → option A) (a : A) (l : list B) :
  (∀ a b, f a b = g a b) → foldlM f a l = foldlM g a l.
Proof.
  intros Hfg. revert a. induction l as [|b l IH]; intros a; cbn; [done|].
  rewrite Hfg. destruct (g a b); cbn; [apply IH | done].
Qed.

Lemma split_product_carry old prod carry :
  Z.land (old + prod + carry) mask64
  = Z.land (old + Z.land prod mask64 + carry) mask64
  ∧ Z.shiftr (old + prod + carry) 64
    = Z.shiftr (old + Z.land prod mask64 + carry) 64 + Z.shiftr prod 64.
Proof.
  rewrite !land_mask64, !shiftr_64.
  change (2 ^ 64) with 18446744073709551616.
  Z.div_mod_to_equations. lia.
Qed.

Lemma debug_add_step_split m p_limbs i st j :
  debug_add_step m p_limbs i st j = add_mp_step m p_limbs i st j.
Proof.
  destruct st as [t_limbs carry]. unfold debug_add_step, add_mp_step.
  destruct (p_limbs !! j) as [pj|]; cbn; [|done].
  destruct (t_limbs !! (i + j)%nat) as [old_val|]; cbn; [|done].
  destruct (split_product_carry old_val (m * pj) carry) as [-> ->]. done.
Qed.

Lemma debug_redc_fixed t p inv : debug_redc t p inv = fixed_redc t p inv.
Proof.
  unfold debug_redc, fixed_redc, debug_redc_rounds, fixed_redc_rounds.
  f_equal. apply foldlM_ext. intros t_limbs i.
  unfold debug_redc_round, fixed_redc_round, add_mp.
  destruct (t_limbs !! i) as [ti|]; [|done]. cbn [mbind option_bind].
  by rewrite (foldlM_ext _ _ _ _ (debug_add_step_split _ _ _)).
Qed.

Lemma montgomery_mult_fixed a b p r inv :
  montgomery_mult a b p r inv = fixed_redc (a * b) p inv.
Proof.
  unfold montgomery_mult, fixed_redc, montgomery_mult_rounds,
    fixed_redc_rounds.
  cbn [split_limbs pad_limbs length Nat.sub replicate app seq foldlM].
  reflexivity.
Qed.

(** X1: [debug_redc] and [fixed_redc] return the same result on every
    input: adding the 128-bit product whole or as low and high halves
    gives the same limb and the same carry. *)
Theorem debug_redc_is_fixed_redc t p inv :
  debug_redc t p inv = fixed_redc t p inv.
Proof. apply debug_redc_fixed. Qed.

(** X2: [montgomery_mult] of correct_montgomery_ref.py is [fixed_redc]
    applied to the product [a * b], for all operands, moduli and [inv];
    its parameter [r] has no effect. *)
Theorem montgomery_mult_is_fixed_redc a b p r inv :
  montgomery_mult a b p r inv = fixed_redc (a * b) p inv.
Proof. apply montgomery_mult_fixed. Qed.

(** ** The extended Euclidean algorithm and the inverse it yields *)

Lemma extended_gcd_ind (P : Z → Z → Prop) :
  (∀ b, P 0 b) →
  (∀ a b, a ≠ 0 → P (b mod a) a → P a b) →
  ∀ a b, P a b.
Proof.
  intros H0 Hstep a.
  remember (Z.abs_nat a) as n eqn:Hn. revert a Hn.
  induction n as [n IH] using lt_wf_ind. intros a Hn b.
  destruct (Z.eq_dec a 0) as [->|Hne]; [apply H0|].
  apply Hstep; [done|]. apply (IH (Z.abs_nat (b mod a))); [|done].
  subst n. destruct (Z.lt_ge_cases 0 a).
  - pose proof (Z.mod_pos_bound b a). lia.
  - pose proof (Z.mod_neg_bound b a). lia.
Qed.

Lemma extended_gcd_zero b : extended_gcd 0 b = (b, 0, 1).
Proof. by rewrite extended_gcd_step. Qed.

Lemma extended_gcd_nonzero a b :
  a ≠ 0 →
  extended_gcd a b
  = let '(gcd, x1, y1) := extended_gcd (b mod a) a in
    (gcd, y1 - (b / a) * x1, x1).
Proof.
  intros Ha. rewrite extended_gcd_step. by destruct (Z.eqb_spec a 0).
Qed.

Lemma extended_gcd_spec a b :
  let '(gcd, x, y) := extended_gcd a b in
  a * x + b * y = gcd ∧ (0 <= a → 0 <= b → gcd = Z.gcd a b).
Proof.
  revert a b. apply extended_gcd_ind.
  - intros b. rewrite extended_gcd_zero. split; [ring|].
    intros _ Hb. by rewrite Z.gcd_0_l, Z.abs_eq.
  - intros a b Ha IH. rewrite extended_gcd_nonzero by done.
    destruct (extended_gcd (b mod a) a) as [[g x1] y1].
    destruct IH as [IHb IHg]. split.
    + pose proof (Z.div_mod b a Ha) as Hdm.
      replace (a * (y1 - b / a * x1) + b * x1)
        with (a * y1 + (b - a * (b / a)) * x1) by ring.
      replace (b - a * (b / a)) with (b mod a) by lia. lia.
    + intros Ha0 Hb0. rewrite IHg.
      * by rewrite Z.gcd_mod, Z.gcd_comm.
      * apply Z.mod_pos_bound. lia.
      * done.
Qed.

(** X3: the triple [(gcd, x, y)] returned by [extended_gcd(a, b)]
    satisfies Bezout's identity [a * x + b * y = gcd] for all integers,
    and for non-negative arguments [gcd] is the greatest common divisor. *)
Theorem extended_gcd_bezout a b :
  let '(gcd, x, y) := extended_gcd a b in
  a * x + b * y = gcd ∧ (0 <= a → 0 <= b → gcd = Z.gcd a b).
Proof. apply extended_gcd_spec. Qed.

Lemma extended_gcd_bezout_witness :
  let '(gcd, x, y) := extended_gcd 0 5 in
  0 * x + 5 * y = gcd ∧ (0 <= 0 → 0 <= 5 → gcd = Z.gcd 0 5).
Proof. apply (extended_gcd_bezout 0 5). Defined.

Lemma mod_inverse_some a m x :
  1 < m → mod_inverse a m = Some x → 0 <= x < m ∧ (a * x) mod m = 1.
Proof.
  intros Hm. unfold mod_inverse.
  pose proof (extended_gcd_spec a m) as Hb.
  destruct (extended_gcd a m) as [[g x'] y]. destruct Hb as [Hb _].
  destruct (Z.eqb_spec g 1) as [->|]; [|done]. intros [= <-]. split.
  - apply Z.mod_pos_bound. lia.
  - rewrite Z.mul_mod_idemp_r by lia.
    replace (a * x') with (1 + (- y) * m) by lia.
    rewrite Z.mod_add by lia. apply Z.mod_1_l. lia.
Qed.

(** X4: when [mod_inverse(a, m)] returns a value [x] for a modulus
    [m > 1], [x] lies in [[0, m)] and [a * x] is 1 modulo [m]. *)
Theorem mod_inverse_correct a m x :
  1 < m → mod_inverse a m = Some x → 0 <= x < m ∧ (a * x) mod m = 1.
Proof. apply mod_inverse_some. Qed.

Lemma mod_inverse_correct_witness :
  0 <= 2 < 5 ∧ (3 * 2) mod 5 = 1.
Proof.
  apply (mod_inverse_correct 3 5 2).
  - lia.
  - unfold mod_inverse. rewrite extended_gcd_nonzero by lia.
    change (5 mod 3) with 2. rewrite extended_gcd_nonzero by lia.
    change (3 mod 2) with 1. rewrite extended_gcd_nonzero by lia.
    change (2 mod 1) with 0. rewrite extended_gcd_zero. reflexivity.
Defined.

Lemma mod_inverse_none a m :
  0 <= a → 0 <= m → (mod_inverse a m = None ↔ Z.gcd a m ≠ 1).
Proof.
  intros Ha Hm. unfold mod_inverse.
  pose proof (extended_gcd_spec a m) as Hb.
  destruct (extended_gcd a m) as [[g x'] y]. destruct Hb as [_ Hg].
  rewrite <- (Hg Ha Hm). by destruct (Z.eqb_spec g 1).
Qed.



Lemma odd_coprime_2_64 q : Z.odd q = true → Z.gcd q (2 ^ 64) = 1.
Proof.
  intros Hodd. apply (Z.coprime_pow_r q 2 64); [lia|]. unfold Z.coprime.
  destruct (Z.gcd_divide_r q 2) as [c Hc].
  destruct (Z.gcd_divide_l q 2) as [d Hd].
  pose proof (Z.gcd_nonneg q 2) as Hnn.
  pose proof (Z.divide_pos_le (Z.gcd q 2) 2 ltac:(lia) (Z.gcd_divide_r q 2)).
  assert (Z.gcd q 2 ≠ 0) by (intros E; rewrite E in Hc; lia).
  assert (Hg : Z.gcd q 2 = 1 ∨ Z.gcd q 2 = 2) by lia.
  destruct Hg as [Hg|Hg]; [done|].
  rewrite Hg in Hd. rewrite Hd, Z.odd_mul in Hodd.
  by rewrite andb_false_r in Hodd.
Qed.

(** X6: for every odd modulus [p] the derivation
    [mod_inverse((-p) % (1 << 64), 1 << 64)] of
    compute_montgomery_constants.py succeeds, and the value [inv] it
    returns is in [[0, 2^64)] with [p * inv = -1] modulo [2^64], which is
    what the reduction needs to zero a limb. *)
Theorem inv_derivation_odd_modulus p :
  Z.odd p = true →
  ∃ inv, mod_inverse ((- p) mod Z.shiftl 1 64) (Z.shiftl 1 64) = Some inv
         ∧ 0 <= inv < 2 ^ 64 ∧ (p * inv + 1) mod 2 ^ 64 = 0.
Proof.
  intros Hodd. change (Z.shiftl 1 64) with (2 ^ 64).
  assert (Hg : Z.gcd ((- p) mod 2 ^ 64) (2 ^ 64) = 1).
  { rewrite Z.gcd_mod, Z.gcd_comm, Z.gcd_opp_l by lia.
    by apply odd_coprime_2_64. }
  destruct (mod_inverse ((- p) mod 2 ^ 64) (2 ^ 64)) as [inv|] eqn:E.
  - exists inv. split; [done|].
    apply mod_inverse_some in E as [Hr Hinv]; [|lia]. split; [done|].
    rewrite Z.mul_mod_idemp_l in Hinv by lia.
    replace (p * inv + 1) with (1 - (- p * inv)) by ring.
    rewrite Zminus_mod, Hinv. reflexivity.
  - apply mod_inverse_none in E; [done | | lia].
    apply Z.mod_pos_bound. lia.
Qed.

Lemma inv_derivation_odd_modulus_witness :
  ∃ inv, mod_inverse ((- 7) mod Z.shiftl 1 64) (Z.shiftl 1 64) = Some inv
         ∧ 0 <= inv < 2 ^ 64 ∧ (7 * inv + 1) mod 2 ^ 64 = 0.
Proof. apply (inv_derivation_odd_modulus 7). reflexivity. Defined.

(** ** The whole-integer reduction for any modulus *)

(** X7: for every modulus [p > 0], every [inv] with [p * inv = -1]
    modulo [2^64] and every [T] with [0 <= T < p * 2^128],
    [montgomery_reduce(T, p, inv)] lies in [[0, p)] and, multiplied back by
    [2^128], is congruent to [T] modulo [p]. *)
Theorem montgomery_reduce_any_modulus T p inv :
  0 < p → (p * inv + 1) mod 2 ^ 64 = 0 → 0 <= T < p * 2 ^ 128 →
  0 <= montgomery_reduce T p inv < p
  ∧ (montgomery_reduce T p inv * 2 ^ 128) mod p = T mod p.
Proof. intros Hp Hinv HT. by apply montgomery_reduce_spec. Qed.

Lemma montgomery_reduce_any_modulus_witness :
  0 <= montgomery_reduce 35 7 0x9249249249249249 < 7
  ∧ (montgomery_reduce 35 7 0x9249249249249249 * 2 ^ 128) mod 7 = 35 mod 7.
Proof.
  apply (montgomery_reduce_any_modulus 35 7 0x9249249249249249).
  - lia.
  - reflexivity.
  - lia.
Defined.

(** X8: reducing the product of two Montgomery forms gives the Montgomery
    form of the product: with [a = x*R mod p] and [b = y*R mod p],
    [montgomery_reduce] of [a * b], and of [a * b mod p] as
    verify_mont_math.py forms it, is [x*y*R mod p]. *)
Theorem montgomery_reduce_product x y :
  let a := (x * Fp128.R) mod Fp128.p in
  let b := (y * Fp128.R) mod Fp128.p in
  montgomery_reduce (a * b) Fp128.p Fp128.INV
  = (x * y * Fp128.R) mod Fp128.p
  ∧ montgomery_reduce ((a * b) mod Fp128.p) Fp128.p Fp128.INV
    = (x * y * Fp128.R) mod Fp128.p.
Proof.
  intros a b. set (K := 340281717884140631619742386188451840000).
  assert (Hp : 0 < Fp128.p) by reflexivity.
  assert (HK : (2 ^ 128 * K) mod Fp128.p = 1) by (vm_compute; reflexivity).
  assert (HRK : (Fp128.R * K) mod Fp128.p = 1) by (vm_compute; reflexivity).
  assert (Ha : 0 <= a < Fp128.p) by (apply Z.mod_pos_bound; lia).
  assert (Hb : 0 <= b < Fp128.p) by (apply Z.mod_pos_bound; lia).
  assert (Hab : (a * b * K) mod Fp128.p = (x * y * Fp128.R) mod Fp128.p).
  { subst a b. rewrite <- Z.mul_mod_idemp_l, <- Z.mul_mod by lia.
    rewrite Z.mul_mod_idemp_l by lia.
    replace (x * Fp128.R * (y * Fp128.R) * K)
      with (x * y * Fp128.R * (Fp128.R * K)) by ring.
    by rewrite <- Z.mul_mod_idemp_r, HRK, Z.mul_1_r by lia. }
  pose proof (montgomery_reduce_inverse Fp128.p Fp128.INV INV_cancels_p)
    as Hred.
  split.
  - rewrite (Hred (a * b) K Hp HK); [done|]. rewrite p_value in *. nia.
  - rewrite (Hred ((a * b) mod Fp128.p) K Hp HK).
    + by rewrite Z.mul_mod_idemp_l by lia.
    + pose proof (Z.mod_pos_bound (a * b) Fp128.p Hp).
      rewrite p_value in *. lia.
Qed.

(** ** Roots of neighbouring sizes *)

(** X9: the root of half the size is the square of the root: for
    [n = 2^k] with [1 <= k <= 32],
    [omega_(n/2) = omega_n * omega_n mod p]. *)
Theorem omega_n_half_is_square n k :
  1 <= k <= 32 → n = 2 ^ k →
  omega_n (n / 2) = (omega_n n * omega_n n) mod Fp128.p.
Proof.
  intros Hk ->.
  assert (Hp : Fp128.p ≠ 0) by done.
  assert (Hhalf : 2 ^ k / 2 = 2 ^ (k - 1)).
  { replace k with (k - 1 + 1) at 1 by lia.
    rewrite Z.pow_add_r, Z.pow_1_r by lia. apply Z.div_mul. lia. }
  rewrite Hhalf, !omega_n_pow2 by lia.
  rewrite <- !Z.pow_sub_r by lia. rewrite !pow_mod_spec by done.
  rewrite <- Z.mul_mod by done. rewrite <- Z.pow_add_r.
  - f_equal. f_equal. replace (32 - (k - 1)) with (32 - k + 1) by lia.
    rewrite Z.pow_add_r by lia. lia.
  - apply Z.pow_nonneg. lia.
  - apply Z.pow_nonneg. lia.
Qed.

Lemma omega_n_half_is_square_witness :
  omega_n (8 / 2) = (omega_n 8 * omega_n 8) mod Fp128.p.
Proof. apply (omega_n_half_is_square 8 3); [lia | reflexivity]. Defined.

(** ** Exact accounting of one reduction round *)

Lemma split_add_exact x0 x1 m p0 p1 :
  let s0 := x0 + Z.land (m * p0) mask64 + 0 in
  let c0 := Z.shiftr s0 64 + Z.shiftr (m * p0) 64 in
  let s1 := x1 + Z.land (m * p1) mask64 + c0 in
  let c1 := Z.shiftr s1 64 + Z.shiftr (m * p1) 64 in
  Z.land s0 mask64 + 2 ^ 64 * Z.land s1 mask64 + 2 ^ 128 * c1
  = x0 + 2 ^ 64 * x1 + m * p0 + 2 ^ 64 * (m * p1).
Proof.
  intros s0 c0 s1 c1. subst s0 c0 s1 c1.
  rewrite !land_mask64, !shiftr_64.
  change (2 ^ 128) with (18446744073709551616 * 18446744073709551616).
  change (2 ^ 64) with 18446744073709551616.
  generalize (m * p0) (m * p1). intros P0 P1.
  Z.div_mod_to_equations. lia.
Qed.

Lemma split_add_carry_bound x0 x1 m p0 p1 :
  limb x0 → limb x1 → limb m → limb p0 → limb p1 →
  let s0 := x0 + Z.land (m * p0) mask64 + 0 in
  let c0 := Z.shiftr s0 64 + Z.shiftr (m * p0) 64 in
  let s1 := x1 + Z.land (m * p1) mask64 + c0 in
  let c1 := Z.shiftr s1 64 + Z.shiftr (m * p1) 64 in
  limb c1.
Proof.
  intros Hx0 Hx1 Hm Hp0 Hp1 s0 c0 s1 c1. unfold limb in *.
  pose proof (split_add_exact x0 x1 m p0 p1) as He. cbv zeta in He.
  fold s0 c0 s1 c1 in He.
  pose proof (limb_land s0) as Hl0. pose proof (limb_land s1) as Hl1.
  unfold limb in Hl0, Hl1.
  assert (0 <= m * p0 <= (2 ^ 64 - 1) * (2 ^ 64 - 1)) by nia.
  assert (0 <= m * p1 <= (2 ^ 64 - 1) * (2 ^ 64 - 1)) by nia.
  change (2 ^ 128) with (18446744073709551616 * 18446744073709551616) in *.
  change (2 ^ 64) with 18446744073709551616 in *.
  lia.
Qed.

Lemma div_mod_limb a r q :
  0 <= r < 2 ^ 64 → a = r + 2 ^ 64 * q → a / 2 ^ 64 = q ∧ a mod 2 ^ 64 = r.
Proof.
  intros Hr ->. change (2 ^ 64) with 18446744073709551616 in *.
  Z.div_mod_to_equations. lia.
Qed.

Lemma land_limb x : limb x → Z.land x mask64 = x.
Proof. intros Hx. rewrite land_mask64. by apply Z.mod_small. Qed.

Lemma split_limbs_2 p :
  0 <= p < 2 ^ 128 →
  ∃ p0 p1, split_limbs 2 p = [p0; p1] ∧ limb p0 ∧ limb p1
           ∧ p = p0 + 2 ^ 64 * p1.
Proof.
  intros Hp. exists (Z.land p mask64), (Z.land (Z.shiftr p 64) mask64).
  split; [done|]. split; [apply limb_land|]. split; [apply limb_land|].
  rewrite !land_mask64, shiftr_64.
  change (2 ^ 128) with (18446744073709551616 * 18446744073709551616) in *.
  change (2 ^ 64) with 18446744073709551616 in *.
  Z.div_mod_to_equations. lia.
Qed.

Lemma split_limbs_4_small t :
  0 <= t < 2 ^ 128 →
  ∃ t0 t1, split_limbs 4 t = [t0; t1; 0; 0] ∧ limb t0 ∧ limb t1
           ∧ t = t0 + 2 ^ 64 * t1 ∧ t0 = t mod 2 ^ 64.
Proof.
  intros Ht. exists (Z.land t mask64), (Z.land (Z.shiftr t 64) mask64).
  split.
  - cbn [split_limbs]. rewrite !land_mask64, !shiftr_64.
    assert (E : t / 2 ^ 64 / 2 ^ 64 = 0).
    { rewrite Z.div_div by lia. apply Z.div_small.
      change (2 ^ 64 * 2 ^ 64) with (2 ^ 128). lia. }
    by rewrite E.
  - split; [apply limb_land|]. split; [apply limb_land|].
    rewrite !land_mask64, shiftr_64. split; [|done].
    change (2 ^ 128) with (18446744073709551616 * 18446744073709551616) in *.
    change (2 ^ 64) with 18446744073709551616 in *.
    Z.div_mod_to_equations. lia.
Qed.

Section ExactRounds.
Variables p0 p1 inv : Z.
Hypothesis Hp0 : limb p0.
Hypothesis Hp1 : limb p1.

Lemma fixed_round_0_exact t0 t1 t2 t3 :
  limb t0 → limb t1 →
  ∃ l0 l1 c,
    fixed_redc_round [p0; p1] inv [t0; t1; t2; t3] 0
    = Some [l0; l1; Z.land (t2 + c) mask64; t3]
    ∧ limb l0 ∧ limb l1 ∧ limb c
    ∧ l0 + 2 ^ 64 * l1 + 2 ^ 128 * c
      = t0 + 2 ^ 64 * t1 + Z.land (t0 * inv) mask64 * (p0 + 2 ^ 64 * p1).
Proof.
  intros Ht0 Ht1. set (m := Z.land (t0 * inv) mask64).
  pose proof (split_add_exact t0 t1 m p0 p1) as He.
  pose proof (split_add_carry_bound t0 t1 m p0 p1 Ht0 Ht1 (limb_land _)
                Hp0 Hp1) as Hc.
  cbv zeta in He, Hc. eexists _, _, _. split; [reflexivity|].
  split; [apply limb_land|]. split; [apply limb_land|]. split; [exact Hc|].
  fold m. rewrite He. ring.
Qed.

Lemma fixed_round_1_exact t0 t1 t2 t3 :
  limb t1 → limb t2 →
  ∃ l1 l2 c,
    fixed_redc_round [p0; p1] inv [t0; t1; t2; t3] 1
    = Some [t0; l1; l2; Z.land (t3 + c) mask64]
    ∧ limb l1 ∧ limb l2 ∧ limb c
    ∧ l1 + 2 ^ 64 * l2 + 2 ^ 128 * c
      = t1 + 2 ^ 64 * t2 + Z.land (t1 * inv) mask64 * (p0 + 2 ^ 64 * p1).
Proof.
  intros Ht1 Ht2. set (m := Z.land (t1 * inv) mask64).
  pose proof (split_add_exact t1 t2 m p0 p1) as He.
  pose proof (split_add_carry_bound t1 t2 m p0 p1 Ht1 Ht2 (limb_land _)
                Hp0 Hp1) as Hc.
  cbv zeta in He, Hc. eexists _, _, _. split; [reflexivity|].
  split; [apply limb_land|]. split; [apply limb_land|]. split; [exact Hc|].
  fold m. rewrite He. ring.
Qed.
End ExactRounds.

Lemma montgomery_reduce_pre_unfold T p inv :
  montgomery_reduce_pre T p inv
  = (T + redc_m0 p inv T * p + redc_m1 p inv T * 2 ^ 64 * p) / 2 ^ 128.
Proof.
  unfold montgomery_reduce_pre.
  by rewrite montgomery_reduce_rounds, Z.shiftr_div_pow2 by lia.
Qed.

(** X10: on every input below [2^128] - in particular on a field element
    that is being converted out of Montgomery form - [fixed_redc] loses no
    carry and returns what the whole-integer [montgomery_reduce] returns,
    for every modulus below [2^128] and every [inv]. *)
Theorem fixed_redc_exact_on_single_width t p inv :
  0 <= t < 2 ^ 128 → 0 <= p < 2 ^ 128 →
  fixed_redc t p inv = Some (montgomery_reduce t p inv).
Proof.
  intros Ht Hp.
  destruct (split_limbs_2 p Hp) as (p0 & p1 & Ep & Hp0 & Hp1 & Hpv).
  destruct (split_limbs_4_small t Ht) as (t0 & t1 & Et & Ht0 & Ht1 & Htv & Et0).
  unfold fixed_redc, fixed_redc_rounds. rewrite Ep, Et. cbn [seq foldlM].
  destruct (fixed_round_0_exact p0 p1 inv Hp0 Hp1 t0 t1 0 0 Ht0 Ht1)
    as (l0 & l1 & c & -> & Hl0 & Hl1 & Hc & H0).
  cbn [mbind option_bind]. rewrite Z.add_0_l, (land_limb c Hc).
  destruct (fixed_round_1_exact p0 p1 inv Hp0 Hp1 l0 l1 c 0 Hl1 Hc)
    as (l1' & l2' & c' & -> & Hl1' & Hl2' & Hc' & H1).
  cbn [mbind option_bind lookup list_lookup].
  rewrite Z.add_0_l, (land_limb c' Hc'). cbn.
  unfold montgomery_reduce. do 2 f_equal.
  rewrite lor_shiftl_64 by exact Hl2'.
  rewrite montgomery_reduce_pre_unfold.
  set (m0 := Z.land (t0 * inv) mask64) in *.
  set (m1 := Z.land (l1 * inv) mask64) in *.
  assert (Em0 : redc_m0 p inv t = m0).
  { unfold redc_m0. subst m0. by rewrite land_mask64, Et0. }
  assert (Em1 : redc_m1 p inv t = m1).
  { unfold redc_m1. rewrite Em0. subst m1. rewrite land_mask64.
    destruct (div_mod_limb (t + m0 * p) l0 (l1 + 2 ^ 64 * c) Hl0) as [Ed _].
    { rewrite Htv, Hpv.
      change (2 ^ 128) with (2 ^ 64 * 2 ^ 64) in H0. lia. }
    rewrite Ed.
    destruct (div_mod_limb (l1 + 2 ^ 64 * c) l1 c Hl1 eq_refl) as [_ ->].
    done. }
  rewrite Em0, Em1. symmetry.
  assert (Etot : t + m0 * p + m1 * 2 ^ 64 * p
                 = (l0 + 2 ^ 64 * l1') + (l2' + c' * 2 ^ 64) * 2 ^ 128).
  { rewrite Htv, Hpv.
    change (2 ^ 128) with (2 ^ 64 * 2 ^ 64) in *. lia. }
  rewrite Etot, Z.div_add by lia.
  rewrite Z.div_small; [lia|].
  unfold limb in *. change (2 ^ 128) with (2 ^ 64 * 2 ^ 64). nia.
Qed.

Lemma fixed_redc_exact_on_single_width_witness :
  fixed_redc 6 Fp128.p Fp128.INV
  = Some (montgomery_reduce 6 Fp128.p Fp128.INV).
Proof.
  apply (fixed_redc_exact_on_single_width 6 Fp128.p Fp128.INV).
  - lia.
  - vm_compute. split; [discriminate | reflexivity].
Defined.

(** ** reference_montgomery.py keeps every carry *)

Lemma split_while_step temp :
  Reference.split_while temp
  = if 0 <? temp
    then Z.land temp mask64 :: Reference.split_while (Z.shiftr temp 64)
    else [].
Proof.
  rewrite (Reference.split_while_equation_1 temp).
  destruct (Z_lt_dec 0 temp), (Z.ltb_spec 0 temp); cbn; done || lia.
Qed.

Lemma split_limbs_zero n : split_limbs n 0 = replicate n 0.
Proof.
  induction n as [|n IH]; cbn; [done|].
  by rewrite Z.land_0_l, Z.shiftr_0_l, IH.
Qed.

Lemma split_while_padded n t :
  0 <= t < 2 ^ (64 * Z.of_nat n) →
  pad_limbs n (Reference.split_while t) = split_limbs n t.
Proof.
  revert t. induction n as [|n IH]; intros t Ht.
  - change (2 ^ (64 * Z.of_nat 0)) with 1 in Ht.
    rewrite split_while_step. by destruct (Z.ltb_spec 0 t); [lia|].
  - rewrite split_while_step. destruct (Z.ltb_spec 0 t) as [Hpos|Hz].
    + cbn [split_limbs]. rewrite <- IH.
      * unfold pad_limbs. cbn [length app]. by rewrite Nat.sub_succ.
      * rewrite shiftr_64. split; [apply Z.div_pos; lia|].
        apply Z.div_lt_upper_bound; [lia|].
        rewrite <- Z.pow_add_r by lia.
        replace (64 + 64 * Z.of_nat n) with (64 * Z.of_nat (S n)) by lia.
        lia.
    + replace t with 0 by lia. rewrite split_limbs_zero.
      unfold pad_limbs. cbn [length app]. by rewrite Nat.sub_0_r.
Qed.

Lemma split_limbs_4 t :
  0 <= t < 2 ^ 256 →
  ∃ t0 t1 t2 t3,
    split_limbs 4 t = [t0; t1; t2; t3] ∧ limb t0 ∧ limb t1
    ∧ t = t0 + 2 ^ 64 * t1 + 2 ^ 128 * (t2 + 2 ^ 64 * t3)
    ∧ t0 = t mod 2 ^ 64.
Proof.
  intros Ht. eexists _, _, _, _. split; [reflexivity|].
  split; [apply limb_land|]. split; [apply limb_land|].
  rewrite !land_mask64, !shiftr_64. split; [|done].
  change (2 ^ 256) with (18446744073709551616 * 18446744073709551616
                         * 18446744073709551616 * 18446744073709551616) in *.
  change (2 ^ 128) with (18446744073709551616 * 18446744073709551616) in *.
  change (2 ^ 64) with 18446744073709551616 in *.
  Z.div_mod_to_equations. lia.
Qed.

Section ExactAddMp.
Variables p0 p1 inv : Z.

Lemma add_mp_0_exact t0 t1 t2 t3 :
  ∃ l0 l1 c,
    add_mp [p0; p1] inv [t0; t1; t2; t3] 0 = Some ([l0; l1; t2; t3], c)
    ∧ limb l0 ∧ limb l1
    ∧ l0 + 2 ^ 64 * l1 + 2 ^ 128 * c
      = t0 + 2 ^ 64 * t1 + Z.land (t0 * inv) mask64 * (p0 + 2 ^ 64 * p1).
Proof.
  set (m := Z.land (t0 * inv) mask64).
  pose proof (split_add_exact t0 t1 m p0 p1) as He. cbv zeta in He.
  eexists _, _, _. split; [reflexivity|].
  split; [apply limb_land|]. split; [apply limb_land|].
  fold m. rewrite He. ring.
Qed.

Lemma add_mp_1_exact t0 t1 t2 t3 :
  ∃ l1 l2 c,
    add_mp [p0; p1] inv [t0; t1; t2; t3] 1 = Some ([t0; l1; l2; t3], c)
    ∧ limb l1 ∧ limb l2
    ∧ l1 + 2 ^ 64 * l2 + 2 ^ 128 * c
      = t1 + 2 ^ 64 * t2 + Z.land (t1 * inv) mask64 * (p0 + 2 ^ 64 * p1).
Proof.
  set (m := Z.land (t1 * inv) mask64).
  pose proof (split_add_exact t1 t2 m p0 p1) as He. cbv zeta in He.
  eexists _, _, _. split; [reflexivity|].
  split; [apply limb_land|]. split; [apply limb_land|].
  fold m. rewrite He. ring.
Qed.
End ExactAddMp.

Lemma reference_round_0_exact p inv p0 p1 t0 t1 t2 t3 :
  split_limbs 2 p = [p0; p1] →
  ∃ l0 l1 c,
    Reference.montgomery_mult_round p inv [t0; t1; t2; t3] 0
    = Some [l0; l1; t2 + c; t3]
    ∧ limb l0 ∧ limb l1
    ∧ l0 + 2 ^ 64 * l1 + 2 ^ 128 * c
      = t0 + 2 ^ 64 * t1 + Z.land (t0 * inv) mask64 * (p0 + 2 ^ 64 * p1).
Proof.
  intros Ep. unfold Reference.montgomery_mult_round.
  change [Z.land p mask64; Z.land (Z.shiftr p 64) mask64]
    with (split_limbs 2 p). rewrite Ep. cbv zeta.
  destruct (add_mp_0_exact p0 p1 inv t0 t1 t2 t3)
    as (l0 & l1 & c & -> & Hl0 & Hl1 & H0).
  by exists l0, l1, c.
Qed.

Lemma reference_round_1_exact p inv p0 p1 t0 t1 t2 t3 :
  split_limbs 2 p = [p0; p1] →
  ∃ l1 l2 c,
    Reference.montgomery_mult_round p inv [t0; t1; t2; t3] 1
    = Some [t0; l1; l2; t3 + c]
    ∧ limb l1 ∧ limb l2
    ∧ l1 + 2 ^ 64 * l2 + 2 ^ 128 * c
      = t1 + 2 ^ 64 * t2 + Z.land (t1 * inv) mask64 * (p0 + 2 ^ 64 * p1).
Proof.
  intros Ep. unfold Reference.montgomery_mult_round.
  change [Z.land p mask64; Z.land (Z.shiftr p 64) mask64]
    with (split_limbs 2 p). rewrite Ep. cbv zeta.
  destruct (add_mp_1_exact p0 p1 inv t0 t1 t2 t3)
    as (l1 & l2 & c & -> & Hl1 & Hl2 & H1).
  by exists l1, l2, c.
Qed.

Lemma reference_montgomery_mult_spec a b p r inv :
  0 <= a * b < 2 ^ 256 → 0 <= p < 2 ^ 128 →
  Reference.montgomery_mult a b p r inv
  = Some (montgomery_reduce (a * b) p inv).
Proof.
  intros Ht Hp. set (t := a * b) in *.
  destruct (split_limbs_2 p Hp) as (p0 & p1 & Ep & Hp0 & Hp1 & Hpv).
  destruct (split_limbs_4 t Ht)
    as (t0 & t1 & t2 & t3 & Et & Ht0 & Ht1 & Htv & Et0).
  unfold Reference.montgomery_mult. fold t.
  rewrite (split_while_padded 4 t Ht), Et. cbn [seq foldlM].
  destruct (reference_round_0_exact p inv p0 p1 t0 t1 t2 t3 Ep)
    as (l0 & l1 & c & -> & Hl0 & Hl1 & H0).
  cbn [mbind option_bind].
  destruct (reference_round_1_exact p inv p0 p1 l0 l1 (t2 + c) t3 Ep)
    as (l1' & l2' & c' & -> & Hl1' & Hl2' & H1).
  cbn [mbind option_bind].
  unfold Reference.extract_result.
  cbn [length Nat.min Nat.sub seq foldlM mbind option_bind lookup
       list_lookup].
  change (64 * Z.of_nat 0) with 0. change (64 * Z.of_nat 1) with 64.
  rewrite Z.shiftl_0_r, Z.lor_0_l.
  unfold montgomery_reduce. do 2 f_equal.
  rewrite lor_shiftl_64 by exact Hl2'.
  rewrite montgomery_reduce_pre_unfold.
  set (m0 := Z.land (t0 * inv) mask64) in *.
  set (m1 := Z.land (l1 * inv) mask64) in *.
  assert (Em0 : redc_m0 p inv t = m0).
  { unfold redc_m0. subst m0. by rewrite land_mask64, Et0. }
  assert (Em1 : redc_m1 p inv t = m1).
  { unfold redc_m1. rewrite Em0. subst m1. rewrite land_mask64.
    destruct (div_mod_limb (t + m0 * p) l0
                (l1 + 2 ^ 64 * (c + t2 + 2 ^ 64 * t3)) Hl0) as [Ed _].
    { rewrite Htv, Hpv.
      change (2 ^ 128) with (2 ^ 64 * 2 ^ 64) in *. lia. }
    rewrite Ed.
    destruct (div_mod_limb (l1 + 2 ^ 64 * (c + t2 + 2 ^ 64 * t3)) l1
                (c + t2 + 2 ^ 64 * t3) Hl1 eq_refl) as [_ ->].
    done. }
  rewrite Em0, Em1. symmetry.
  assert (Etot : t + m0 * p + m1 * 2 ^ 64 * p
                 = (l0 + 2 ^ 64 * l1') + (l2' + (t3 + c') * 2 ^ 64) * 2 ^ 128).
  { rewrite Htv, Hpv.
    change (2 ^ 128) with (2 ^ 64 * 2 ^ 64) in *. lia. }
  rewrite Etot, Z.div_add by lia.
  rewrite Z.div_small; [lia|].
  unfold limb in *. change (2 ^ 128) with (2 ^ 64 * 2 ^ 64). nia.
Qed.

(** X11: [montgomery_mult] of reference_montgomery.py adds each final
    carry without a mask, so no carry is lost: for every product
    [0 <= a * b < 2^256], every modulus below [2^128] and every [inv] it
    returns what the whole-integer [montgomery_reduce] returns on
    [a * b]. *)
Theorem reference_montgomery_mult_exact a b p r inv :
  0 <= a * b < 2 ^ 256 → 0 <= p < 2 ^ 128 →
  Reference.montgomery_mult a b p r inv
  = Some (montgomery_reduce (a * b) p inv).
Proof. apply reference_montgomery_mult_spec. Qed.

Lemma reference_montgomery_mult_exact_witness :
  Reference.montgomery_mult 2 3 Fp128.p Fp128.R Fp128.INV
  = Some (montgomery_reduce (2 * 3) Fp128.p Fp128.INV).
Proof.
  apply (reference_montgomery_mult_exact 2 3 Fp128.p Fp128.R Fp128.INV).
  - lia.
  - vm_compute. split; [discriminate | reflexivity].
Defined.

(** X19: for [0 <= t < 2^(64 n)] the [while temp > 0] split of
    reference_montgomery.py, padded with zeros to [n] limbs, is the list
    that the fixed [n]-iteration split of the other scripts builds. *)
Theorem split_while_is_split_limbs n t :
  0 <= t < 2 ^ (64 * Z.of_nat n) →
  pad_limbs n (Reference.split_while t) = split_limbs n t.
Proof. apply split_while_padded. Qed.

Lemma split_while_is_split_limbs_witness :
  pad_limbs 4 (Reference.split_while 35) = split_limbs 4 35.
Proof. apply (split_while_is_split_limbs 4 35). cbn. lia. Defined.

(** X20: with the right constant, [inv = 2^64 - 1], the multiplication of
    reference_montgomery.py meets the Montgomery contract on the whole
    field: for all [a, b < p] it returns [(a * b * R^-1) mod p], where
    [R^-1] is [pow(r, -1, p)]. *)
Theorem reference_montgomery_mult_contract a b r R_inv :
  Fp128.R_inv = Some R_inv →
  0 <= a < Fp128.p → 0 <= b < Fp128.p →
  Reference.montgomery_mult a b Fp128.p r Fp128.INV
  = Some ((a * b * R_inv) mod Fp128.p).
Proof.
  rewrite R_inv_value. intros [= <-] Ha Hb.
  rewrite reference_montgomery_mult_spec.
  - f_equal.
    pose proof (montgomery_reduce_inverse Fp128.p Fp128.INV INV_cancels_p
                  (a * b) 340281717884140631619742386188451840000) as H.
    assert (H0 : 0 < Fp128.p) by reflexivity.
    assert (H1 : (2 ^ 128 * 340281717884140631619742386188451840000)
                 mod Fp128.p = 1) by (vm_compute; reflexivity).
    apply (H H0 H1). rewrite p_value in *. nia.
  - rewrite p_value in *. nia.
  - rewrite p_value. lia.
Qed.

Lemma reference_montgomery_mult_contract_witness :
  Reference.montgomery_mult 2 3 Fp128.p Fp128.R Fp128.INV
  = Some ((2 * 3 * 340281717884140631619742386188451840000) mod Fp128.p).
Proof.
  apply (reference_montgomery_mult_contract 2 3 Fp128.R
           340281717884140631619742386188451840000).
  - vm_compute. reflexivity.
  - vm_compute. split; [discriminate | reflexivity].
  - vm_compute. split; [discriminate | reflexivity].
Defined.

(** ** textbook_redc.py computes the exact reduction modulo 2^128 *)

Lemma split_digits_2 p :
  0 <= p < 2 ^ 128 →
  ∃ p0 p1, split_digits (2 ^ 64) 2 p = [p0; p1] ∧ limb p0 ∧ limb p1
           ∧ p = p0 + 2 ^ 64 * p1.
Proof.
  intros Hp. eexists _, _. split; [reflexivity|]. unfold limb.
  change (2 ^ 128) with (18446744073709551616 * 18446744073709551616) in *.
  change (2 ^ 64) with 18446744073709551616 in *.
  Z.div_mod_to_equations. lia.
Qed.

Lemma split_digits_4 T :
  ∃ d0 d1 d2 d3 q,
    split_digits (2 ^ 64) 4 T = [d0; d1; d2; d3]
    ∧ limb d0 ∧ limb d1 ∧ limb d2 ∧ limb d3
    ∧ T = d0 + 2 ^ 64 * d1 + 2 ^ 128 * (d2 + 2 ^ 64 * d3) + 2 ^ 256 * q
    ∧ d0 = T mod 2 ^ 64.
Proof.
  eexists _, _, _, _, (T / 2 ^ 64 / 2 ^ 64 / 2 ^ 64 / 2 ^ 64).
  split; [reflexivity|]. unfold limb.
  repeat (split; [apply mod64_bound|]). split; [|done].
  change (2 ^ 256) with (18446744073709551616 * 18446744073709551616
                         * 18446744073709551616 * 18446744073709551616) in *.
  change (2 ^ 128) with (18446744073709551616 * 18446744073709551616) in *.
  change (2 ^ 64) with 18446744073709551616 in *.
  Z.div_mod_to_equations. lia.
Qed.

Lemma propagate_from_2 d0 d1 d2 d3 c :
  limb d2 → limb d3 → 0 <= c →
  propagate_carry (2 ^ 64) 2 [d0; d1; d2; d3] c 2
  = Some [d0; d1; (d2 + c) mod 2 ^ 64;
          (d3 + (d2 + c) / 2 ^ 64) mod 2 ^ 64].
Proof.
  unfold limb. intros H2 H3 Hc. cbn [propagate_carry].
  destruct (Z.ltb_spec 0 c) as [Hpos|Hz].
  - cbn [lookup list_lookup mbind option_bind list_set insert list_insert].
    destruct (Z.ltb_spec 0 ((d2 + c) / 2 ^ 64)) as [Hpos'|Hz'].
    + by cbn [lookup list_lookup mbind option_bind list_set insert
              list_insert].
    + assert (0 <= (d2 + c) / 2 ^ 64) by (apply Z.div_pos; lia).
      replace ((d2 + c) / 2 ^ 64) with 0 by lia.
      by rewrite Z.add_0_r, (Z.mod_small d3) by done.
  - replace c with 0 by lia.
    rewrite Z.add_0_r, (Z.mod_small d2), (Z.div_small d2) by done.
    by rewrite Z.add_0_r, (Z.mod_small d3) by done.
Qed.

Lemma propagate_from_3 d0 d1 d2 d3 c :
  limb d3 → 0 <= c →
  propagate_carry (2 ^ 64) 1 [d0; d1; d2; d3] c 3
  = Some [d0; d1; d2; (d3 + c) mod 2 ^ 64].
Proof.
  unfold limb. intros H3 Hc. cbn [propagate_carry].
  destruct (Z.ltb_spec 0 c) as [Hpos|Hz].
  - by cbn [lookup list_lookup mbind option_bind list_set insert list_insert].
  - replace c with 0 by lia. by rewrite Z.add_0_r, (Z.mod_small d3) by done.
Qed.

Lemma whole_add_exact x0 x1 m p0 p1 :
  let s0 := x0 + m * p0 + 0 in
  let s1 := x1 + m * p1 + s0 / 2 ^ 64 in
  s0 mod 2 ^ 64 + 2 ^ 64 * (s1 mod 2 ^ 64) + 2 ^ 128 * (s1 / 2 ^ 64)
  = x0 + 2 ^ 64 * x1 + m * (p0 + 2 ^ 64 * p1)
  ∧ (limb x0 → limb x1 → limb m → limb p0 → limb p1 → 0 <= s1 / 2 ^ 64).
Proof.
  intros s0 s1. split.
  - subst s0 s1.
    replace (m * (p0 + 2 ^ 64 * p1)) with (m * p0 + 2 ^ 64 * (m * p1)) by ring.
    generalize (m * p0) (m * p1). intros P0 P1.
    change (2 ^ 128) with (18446744073709551616 * 18446744073709551616).
    change (2 ^ 64) with 18446744073709551616.
    Z.div_mod_to_equations. lia.
  - unfold limb. intros Hx0 Hx1 Hm Hp0 Hp1.
    assert (0 <= m * p0) by nia. assert (0 <= m * p1) by nia.
    assert (0 <= s0 / 2 ^ 64) by (apply Z.div_pos; lia).
    apply Z.div_pos; lia.
Qed.

Section TextbookRounds.
Variables p0 p1 N_prime : Z.
Hypothesis Hp0 : limb p0.
Hypothesis Hp1 : limb p1.

Lemma textbook_round_0_exact t0 t1 t2 t3 :
  limb t0 → limb t1 → limb t2 → limb t3 →
  ∃ l0 l1 c,
    textbook_redc_round (2 ^ 64) 2 [p0; p1] N_prime [t0; t1; t2; t3] 0
    = Some [l0; l1; (t2 + c) mod 2 ^ 64;
            (t3 + (t2 + c) / 2 ^ 64) mod 2 ^ 64]
    ∧ limb l0 ∧ limb l1
    ∧ l0 + 2 ^ 64 * l1 + 2 ^ 128 * c
      = t0 + 2 ^ 64 * t1 + (t0 * N_prime) mod 2 ^ 64 * (p0 + 2 ^ 64 * p1).
Proof.
  intros Ht0 Ht1 Ht2 Ht3. set (m := (t0 * N_prime) mod 2 ^ 64).
  destruct (whole_add_exact t0 t1 m p0 p1) as [He Hc]. cbv zeta in He, Hc.
  specialize (Hc Ht0 Ht1 (mod64_bound _) Hp0 Hp1).
  unfold textbook_redc_round.
  cbn [lookup list_lookup mbind option_bind foldlM seq textbook_add_step
       list_set insert list_insert Nat.add length Nat.sub].
  fold m. rewrite propagate_from_2 by done.
  eexists _, _, _. split; [reflexivity|].
  split; [apply mod64_bound|]. split; [apply mod64_bound|]. exact He.
Qed.

Lemma textbook_round_1_exact t0 t1 t2 t3 :
  limb t1 → limb t2 → limb t3 →
  ∃ l1 l2 c,
    textbook_redc_round (2 ^ 64) 2 [p0; p1] N_prime [t0; t1; t2; t3] 1
    = Some [t0; l1; l2; (t3 + c) mod 2 ^ 64]
    ∧ limb l1 ∧ limb l2
    ∧ l1 + 2 ^ 64 * l2 + 2 ^ 128 * c
      = t1 + 2 ^ 64 * t2 + (t1 * N_prime) mod 2 ^ 64 * (p0 + 2 ^ 64 * p1).
Proof.
  intros Ht1 Ht2 Ht3. set (m := (t1 * N_prime) mod 2 ^ 64).
  destruct (whole_add_exact t1 t2 m p0 p1) as [He Hc]. cbv zeta in He, Hc.
  specialize (Hc Ht1 Ht2 (mod64_bound _) Hp0 Hp1).
  unfold textbook_redc_round.
  cbn [lookup list_lookup mbind option_bind foldlM seq textbook_add_step
       list_set insert list_insert Nat.add length Nat.sub].
  fold m. rewrite propagate_from_3 by done.
  eexists _, _, _. split; [reflexivity|].
  split; [apply mod64_bound|]. split; [apply mod64_bound|]. exact He.
Qed.
End TextbookRounds.

Lemma textbook_redc_spec T N N_prime :
  0 <= N < 2 ^ 128 →
  textbook_redc T N N_prime 64
  = Some (cond_sub (montgomery_reduce_pre T N N_prime mod 2 ^ 128) N).
Proof.
  intros HN.
  destruct (split_digits_2 N HN) as (p0 & p1 & Ep & Hp0 & Hp1 & Hpv).
  destruct (split_digits_4 T)
    as (d0 & d1 & d2 & d3 & q & ET & Hd0 & Hd1 & Hd2 & Hd3 & HTv & Ed0).
  unfold textbook_redc, textbook_redc_rounds.
  change (Z.shiftl 1 64) with (2 ^ 64). cbv zeta.
  rewrite Ep. change (2 * 2)%nat with 4%nat. rewrite ET. cbn [seq foldlM].
  destruct (textbook_round_0_exact p0 p1 N_prime Hp0 Hp1 d0 d1 d2 d3
              Hd0 Hd1 Hd2 Hd3) as (l0 & l1 & c & -> & Hl0 & Hl1 & H0).
  cbn [mbind option_bind].
  set (e2 := (d2 + c) mod 2 ^ 64) in *.
  set (g := (d2 + c) / 2 ^ 64) in *.
  set (e3 := (d3 + g) mod 2 ^ 64) in *.
  destruct (textbook_round_1_exact p0 p1 N_prime Hp0 Hp1 l0 l1 e2 e3
              Hl1 (mod64_bound _) (mod64_bound _))
    as (l1' & l2' & c' & -> & Hl1' & Hl2' & H1).
  cbn [mbind option_bind]. do 2 f_equal.
  unfold textbook_extract.
  cbn [seq fold_left lookup list_lookup Nat.sub].
  change (2 ^ 64 ^ Z.of_nat 0) with 1.
  change ((2 ^ 64) ^ Z.of_nat 0) with 1.
  change ((2 ^ 64) ^ Z.of_nat 1) with (2 ^ 64).
  rewrite montgomery_reduce_pre_unfold.
  set (m0 := (d0 * N_prime) mod 2 ^ 64) in *.
  set (m1 := (l1 * N_prime) mod 2 ^ 64) in *.
  assert (Em0 : redc_m0 N N_prime T = m0).
  { unfold redc_m0. subst m0. by rewrite Ed0. }
  pose proof (Z.div_mod (d2 + c) (2 ^ 64) ltac:(lia)) as Hg.
  fold e2 g in Hg.
  assert (Em1 : redc_m1 N N_prime T = m1).
  { unfold redc_m1. rewrite Em0. subst m1.
    destruct (div_mod_limb (T + m0 * N) l0
                (l1 + 2 ^ 64 * (c + d2 + 2 ^ 64 * d3 + 2 ^ 128 * q)) Hl0)
      as [Ed _].
    { rewrite HTv, Hpv.
      change (2 ^ 256) with (2 ^ 64 * 2 ^ 64 * (2 ^ 64 * 2 ^ 64)) in *.
      change (2 ^ 128) with (2 ^ 64 * 2 ^ 64) in *. lia. }
    rewrite Ed.
    destruct (div_mod_limb
                (l1 + 2 ^ 64 * (c + d2 + 2 ^ 64 * d3 + 2 ^ 128 * q)) l1
                (c + d2 + 2 ^ 64 * d3 + 2 ^ 128 * q) Hl1 eq_refl) as [_ ->].
    done. }
  rewrite Em0, Em1.
  pose proof (Z.div_mod (d3 + g) (2 ^ 64) ltac:(lia)) as Hh. fold e3 in Hh.
  set (h := (d3 + g) / 2 ^ 64) in *.
  pose proof (Z.div_mod (e3 + c') (2 ^ 64) ltac:(lia)) as Hh'.
  set (e3' := (e3 + c') mod 2 ^ 64) in *.
  set (h' := (e3 + c') / 2 ^ 64) in *.
  assert (He3' : 0 <= e3' < 2 ^ 64) by apply mod64_bound.
  assert (Etot : T + m0 * N + m1 * 2 ^ 64 * N
                 = (l0 + 2 ^ 64 * l1')
                   + ((l2' + 2 ^ 64 * e3') + (h' + h + q) * 2 ^ 128)
                     * 2 ^ 128).
  { rewrite HTv, Hpv.
    change (2 ^ 256) with (2 ^ 64 * 2 ^ 64 * (2 ^ 64 * 2 ^ 64)) in *.
    change (2 ^ 128) with (2 ^ 64 * 2 ^ 64) in *. lia. }
  rewrite Etot, Z.div_add by lia.
  rewrite (Z.div_small (l0 + 2 ^ 64 * l1')), !Z.add_0_l.
  - rewrite Z.mod_add by lia.
    rewrite Z.mod_small; [lia|].
    unfold limb in *. change (2 ^ 128) with (2 ^ 64 * 2 ^ 64). nia.
  - unfold limb in *. change (2 ^ 128) with (2 ^ 64 * 2 ^ 64). nia.
Qed.

(** X12: for every input [T], every modulus below [2^128] and every
    [N_prime], [textbook_redc] returns the conditional subtraction applied
    to the low 128 bits of the exact quotient
    [(T + m0*N + m1*2^64*N) / 2^128]: the carry loop propagates every carry
    inside the four digits and only a carry out of the fourth digit is
    lost. *)
Theorem textbook_redc_low_128_bits T N N_prime :
  0 <= N < 2 ^ 128 →
  textbook_redc T N N_prime 64
  = Some (cond_sub (montgomery_reduce_pre T N N_prime mod 2 ^ 128) N).
Proof. apply textbook_redc_spec. Qed.

Lemma textbook_redc_low_128_bits_witness :
  textbook_redc 35 Fp128.p Fp128.INV 64
  = Some (cond_sub
            (montgomery_reduce_pre 35 Fp128.p Fp128.INV mod 2 ^ 128)
            Fp128.p).
Proof.
  apply (textbook_redc_low_128_bits 35 Fp128.p Fp128.INV).
  vm_compute. split; [discriminate | reflexivity].
Defined.

Lemma montgomery_reduce_pre_fits T N N_prime :
  0 <= T → 0 <= N → T + (2 ^ 128 - 1) * N < 2 ^ 256 →
  0 <= montgomery_reduce_pre T N N_prime < 2 ^ 128.
Proof.
  intros HT HN Hfit. rewrite montgomery_reduce_pre_unfold.
  pose proof (redc_m0_bound N N_prime T) as H0.
  pose proof (redc_m1_bound N N_prime T) as H1.
  assert (0 <= redc_m0 N N_prime T * N <= (2 ^ 64 - 1) * N) by nia.
  assert (0 <= redc_m1 N N_prime T * N <= (2 ^ 64 - 1) * N) by nia.
  replace (redc_m1 N N_prime T * 2 ^ 64 * N)
    with (2 ^ 64 * (redc_m1 N N_prime T * N)) by ring.
  split.
  - apply Z.div_pos; lia.
  - apply Z.div_lt_upper_bound; [lia|].
    change (2 ^ 256) with (2 ^ 128 * 2 ^ 128) in Hfit.
    change (2 ^ 128) with 340282366920938463463374607431768211456 in *.
    change (2 ^ 64) with 18446744073709551616 in *.
    lia.
Qed.

(** X13: whenever the exact sum fits in four digits, that is
    [T + (2^128 - 1) * N < 2^256] with [T >= 0] and [0 <= N < 2^128],
    [textbook_redc] returns what the whole-integer [montgomery_reduce]
    returns. *)
Theorem textbook_redc_exact_when_fits T N N_prime :
  0 <= T → 0 <= N < 2 ^ 128 → T + (2 ^ 128 - 1) * N < 2 ^ 256 →
  textbook_redc T N N_prime 64 = Some (montgomery_reduce T N N_prime).
Proof.
  intros HT HN Hfit. rewrite textbook_redc_spec by done.
  unfold montgomery_reduce. do 2 f_equal.
  apply Z.mod_small. apply montgomery_reduce_pre_fits; lia.
Qed.

Lemma textbook_redc_exact_when_fits_witness :
  textbook_redc 35 Fp128.p Fp128.INV 64
  = Some (montgomery_reduce 35 Fp128.p Fp128.INV).
Proof.
  apply (textbook_redc_exact_when_fits 35 Fp128.p Fp128.INV).
  - lia.
  - vm_compute. split; [discriminate | reflexivity].
  - reflexivity.
Defined.

(** X15: for every modulus with [2^127 <= N < 2^128], every input [T]
    and every [N_prime], [textbook_redc] returns a value, and the value is
    in [[0, N)]. *)
Theorem textbook_redc_in_range T N N_prime :
  2 ^ 127 <= N < 2 ^ 128 →
  ∃ r, textbook_redc T N N_prime 64 = Some r ∧ 0 <= r < N.
Proof.
  intros HN. rewrite textbook_redc_spec by lia.
  eexists. split; [reflexivity|]. apply cond_sub_range.
  pose proof (Z.mod_pos_bound (montgomery_reduce_pre T N N_prime)
                (2 ^ 128) ltac:(lia)).
  change (2 ^ 128) with (2 * 2 ^ 127) in *. lia.
Qed.

Lemma textbook_redc_in_range_witness :
  ∃ r, textbook_redc 35 Fp128.p Fp128.INV 64 = Some r ∧ 0 <= r < Fp128.p.
Proof.
  apply (textbook_redc_in_range 35 Fp128.p Fp128.INV).
  vm_compute. split; discriminate || reflexivity.
Defined.

(** ** test_montgomery.py: the manual reduction *)

Lemma chain4_exact x0 x1 x2 x3 temp :
  let v0 := x0 + Z.land (Z.shiftr temp (64 * Z.of_nat 0)) mask64 + 0 in
  let v1 := x1 + Z.land (Z.shiftr temp (64 * Z.of_nat 1)) mask64
            + Z.shiftr v0 64 in
  let v2 := x2 + Z.land (Z.shiftr temp (64 * Z.of_nat 2)) mask64
            + Z.shiftr v1 64 in
  let v3 := x3 + Z.land (Z.shiftr temp (64 * Z.of_nat 3)) mask64
            + Z.shiftr v2 64 in
  Z.land v0 mask64 + 2 ^ 64 * Z.land v1 mask64 + 2 ^ 128 * Z.land v2 mask64
  + 2 ^ 192 * Z.land v3 mask64
  + 2 ^ 256 * (Z.shiftr v3 64 + Z.shiftr temp 256)
  = x0 + 2 ^ 64 * x1 + 2 ^ 128 * x2 + 2 ^ 192 * x3 + temp.
Proof.
  intros v0 v1 v2 v3. subst v0 v1 v2 v3.
  change (64 * Z.of_nat 0) with 0. change (64 * Z.of_nat 1) with 64.
  change (64 * Z.of_nat 2) with 128. change (64 * Z.of_nat 3) with 192.
  rewrite !land_mask64, !shiftr_64, !Z.shiftr_div_pow2 by lia.
  change (2 ^ 0) with 1.
  change (2 ^ 256) with (18446744073709551616 * 18446744073709551616
                         * 18446744073709551616 * 18446744073709551616).
  change (2 ^ 192) with (18446744073709551616 * 18446744073709551616
                         * 18446744073709551616).
  change (2 ^ 128) with (18446744073709551616 * 18446744073709551616).
  change (2 ^ 64) with 18446744073709551616.
  Z.div_mod_to_equations. lia.
Qed.

Lemma chain3_exact x1 x2 x3 temp :
  let v1 := x1 + Z.land (Z.shiftr temp (64 * Z.of_nat 0)) mask64 + 0 in
  let v2 := x2 + Z.land (Z.shiftr temp (64 * Z.of_nat 1)) mask64
            + Z.shiftr v1 64 in
  let v3 := x3 + Z.land (Z.shiftr temp (64 * Z.of_nat 2)) mask64
            + Z.shiftr v2 64 in
  Z.land v1 mask64 + 2 ^ 64 * Z.land v2 mask64 + 2 ^ 128 * Z.land v3 mask64
  + 2 ^ 192 * (Z.shiftr v3 64 + Z.shiftr temp 192)
  = x1 + 2 ^ 64 * x2 + 2 ^ 128 * x3 + temp.
Proof.
  intros v1 v2 v3. subst v1 v2 v3.
  change (64 * Z.of_nat 0) with 0. change (64 * Z.of_nat 1) with 64.
  change (64 * Z.of_nat 2) with 128.
  rewrite !land_mask64, !shiftr_64, !Z.shiftr_div_pow2 by lia.
  change (2 ^ 0) with 1.
  change (2 ^ 192) with (18446744073709551616 * 18446744073709551616
                         * 18446744073709551616).
  change (2 ^ 128) with (18446744073709551616 * 18446744073709551616).
  change (2 ^ 64) with 18446744073709551616.
  Z.div_mod_to_equations. lia.
Qed.

Lemma manual_round_0_exact p mprime t0 t1 t2 t3 :
  ∃ l0 l1 l2 l3 k,
    manual_round p mprime [t0; t1; t2; t3] 0 = Some [l0; l1; l2; l3]
    ∧ limb l0 ∧ limb l1 ∧ limb l2 ∧ limb l3
    ∧ l0 + 2 ^ 64 * l1 + 2 ^ 128 * l2 + 2 ^ 192 * l3 + 2 ^ 256 * k
      = t0 + 2 ^ 64 * t1 + 2 ^ 128 * t2 + 2 ^ 192 * t3
        + Z.land (t0 * mprime) mask64 * p.
Proof.
  eexists _, _, _, _, _. split; [reflexivity|].
  repeat (split; [apply limb_land|]).
  exact (chain4_exact t0 t1 t2 t3 (Z.land (t0 * mprime) mask64 * p)).
Qed.

Lemma manual_round_1_exact p mprime t0 t1 t2 t3 :
  ∃ l1 l2 l3 k,
    manual_round p mprime [t0; t1; t2; t3] 1 = Some [t0; l1; l2; l3]
    ∧ limb l1 ∧ limb l2 ∧ limb l3
    ∧ l1 + 2 ^ 64 * l2 + 2 ^ 128 * l3 + 2 ^ 192 * k
      = t1 + 2 ^ 64 * t2 + 2 ^ 128 * t3 + Z.land (t1 * mprime) mask64 * p.
Proof.
  eexists _, _, _, _. split; [reflexivity|].
  repeat (split; [apply limb_land|]).
  exact (chain3_exact t1 t2 t3 (Z.land (t1 * mprime) mask64 * p)).
Qed.

Lemma from_montgomery_manual_pre x p mprime :
  0 <= x < 2 ^ 128 → 0 <= p < 2 ^ 128 →
  from_montgomery_manual x p mprime
  = Some (montgomery_reduce_pre x p mprime).
Proof.
  intros Hx Hp. unfold from_montgomery_manual.
  cbn [replicate list_set lookup list_lookup insert list_insert mbind
       option_bind seq foldlM].
  set (t0 := Z.land x mask64). set (t1 := Z.land (Z.shiftr x 64) mask64).
  assert (Ht0 : limb t0) by apply limb_land.
  assert (Ht1 : limb t1) by apply limb_land.
  assert (Hxv : x = t0 + 2 ^ 64 * t1).
  { subst t0 t1. rewrite !land_mask64, shiftr_64.
    change (2 ^ 128) with (18446744073709551616 * 18446744073709551616) in *.
    change (2 ^ 64) with 18446744073709551616 in *.
    Z.div_mod_to_equations. lia. }
  destruct (manual_round_0_exact p mprime t0 t1 0 0)
    as (l0 & l1 & l2 & l3 & k0 & -> & Hl0 & Hl1 & Hl2 & Hl3 & H0).
  cbn [mbind option_bind].
  destruct (manual_round_1_exact p mprime l0 l1 l2 l3)
    as (l1' & l2' & l3' & k1 & -> & Hl1' & Hl2' & Hl3' & H1).
  cbn [mbind option_bind lookup list_lookup]. f_equal.
  rewrite Z.lor_comm, lor_shiftl_64 by exact Hl2'.
  rewrite montgomery_reduce_pre_unfold.
  set (m0 := Z.land (t0 * mprime) mask64) in *.
  set (m1 := Z.land (l1 * mprime) mask64) in *.
  assert (Hm0 : limb m0) by apply limb_land.
  assert (Hm1 : limb m1) by apply limb_land.
  assert (Em0 : redc_m0 p mprime x = m0).
  { unfold redc_m0. subst m0 t0. by rewrite !land_mask64. }
  assert (Em1 : redc_m1 p mprime x = m1).
  { unfold redc_m1. rewrite Em0. subst m1. rewrite land_mask64.
    destruct (div_mod_limb (x + m0 * p) l0
                (l1 + 2 ^ 64 * (l2 + 2 ^ 64 * l3 + 2 ^ 128 * k0)) Hl0)
      as [Ed _].
    { rewrite Hxv.
      change (2 ^ 256) with (2 ^ 64 * 2 ^ 64 * (2 ^ 64 * 2 ^ 64)) in *.
      change (2 ^ 192) with (2 ^ 64 * 2 ^ 64 * 2 ^ 64) in *.
      change (2 ^ 128) with (2 ^ 64 * 2 ^ 64) in *. lia. }
    rewrite Ed.
    destruct (div_mod_limb
                (l1 + 2 ^ 64 * (l2 + 2 ^ 64 * l3 + 2 ^ 128 * k0)) l1
                (l2 + 2 ^ 64 * l3 + 2 ^ 128 * k0) Hl1 eq_refl) as [_ ->].
    done. }
  rewrite Em0, Em1. symmetry.
  assert (Etot : x + m0 * p + m1 * 2 ^ 64 * p
                 = (l0 + 2 ^ 64 * l1')
                   + (l2' + l3' * 2 ^ 64 + 2 ^ 128 * (k0 + k1)) * 2 ^ 128).
  { rewrite Hxv.
    change (2 ^ 256) with (2 ^ 64 * 2 ^ 64 * (2 ^ 64 * 2 ^ 64)) in *.
    change (2 ^ 192) with (2 ^ 64 * 2 ^ 64 * 2 ^ 64) in *.
    change (2 ^ 128) with (2 ^ 64 * 2 ^ 64) in *. lia. }
  assert (Hk : k0 + k1 = 0).
  { assert (0 <= m0 * p <= (2 ^ 64 - 1) * (2 ^ 128 - 1))
      by (unfold limb in *; nia).
    assert (0 <= m1 * p <= (2 ^ 64 - 1) * (2 ^ 128 - 1))
      by (unfold limb in *; nia).
    unfold limb in *.
    replace (m1 * 2 ^ 64 * p) with (2 ^ 64 * (m1 * p)) in Etot by ring.
    change (2 ^ 128) with 340282366920938463463374607431768211456 in *.
    change (2 ^ 64) with 18446744073709551616 in *.
    lia. }
  rewrite Etot, Hk, Z.mul_0_r, Z.add_0_r, Z.div_add by lia.
  rewrite Z.div_small; [lia|].
  unfold limb in *. change (2 ^ 128) with (2 ^ 64 * 2 ^ 64). nia.
Qed.

(** X14: the manual limb reduction of test_montgomery.py, which has no
    conditional subtraction, returns the fully reduced value for every
    input below the modulus: for [0 <= x < p < 2^128] and
    [p * mprime = -1] modulo [2^64] it returns what [montgomery_reduce]
    returns. *)
Theorem from_montgomery_manual_reduced x p mprime :
  (p * mprime + 1) mod 2 ^ 64 = 0 → 0 <= x < p → p < 2 ^ 128 →
  from_montgomery_manual x p mprime = Some (montgomery_reduce x p mprime).
Proof.
  intros Hinv Hx Hp. rewrite from_montgomery_manual_pre by lia.
  f_equal. unfold montgomery_reduce, cond_sub.
  destruct (Z.leb_spec p (montgomery_reduce_pre x p mprime)) as [Hge|]; [|done].
  pose proof (montgomery_reduce_pre_exact p mprime Hinv x) as He.
  pose proof (redc_m0_bound p mprime x) as H0.
  pose proof (redc_m1_bound p mprime x) as H1.
  assert (0 <= redc_m0 p mprime x * p <= (2 ^ 64 - 1) * p) by nia.
  assert (0 <= redc_m1 p mprime x * p <= (2 ^ 64 - 1) * p) by nia.
  replace (redc_m1 p mprime x * 2 ^ 64 * p)
    with (2 ^ 64 * (redc_m1 p mprime x * p)) in He by ring.
  change (2 ^ 128) with 340282366920938463463374607431768211456 in *.
  change (2 ^ 64) with 18446744073709551616 in *.
  lia.
Qed.

Lemma from_montgomery_manual_reduced_witness :
  from_montgomery_manual Fp128.R Fp128.p Fp128.mprime
  = Some (montgomery_reduce Fp128.R Fp128.p Fp128.mprime).
Proof.
  apply (from_montgomery_manual_reduced Fp128.R Fp128.p Fp128.mprime).
  - reflexivity.
  - vm_compute. split; [discriminate | reflexivity].
  - reflexivity.
Defined.

(** ** The limb-splitting loop and the range of the limb reductions *)

(** X16: the loop that splits an integer into [n] limbs returns [n]
    limbs, each in [[0, 2^64)], and reading them back little-endian gives
    the integer modulo [2^(64 n)]. *)
Theorem split_limbs_round_trip n t :
  length (split_limbs n t) = n
  ∧ Forall limb (split_limbs n t)
  ∧ foldr (fun l acc => l + 2 ^ 64 * acc) 0 (split_limbs n t)
    = t mod 2 ^ (64 * Z.of_nat n).
Proof.
  revert t. induction n as [|n IH]; intros t.
  - cbn. split; [done|]. split; [constructor|]. by rewrite Z.mod_1_r.
  - destruct (IH (Z.shiftr t 64)) as (IHl & IHf & IHv).
    cbn [split_limbs length foldr]. split; [by rewrite IHl|]. split.
    + constructor; [apply limb_land | done].
    + rewrite IHv, land_mask64, shiftr_64.
      replace (64 * Z.of_nat (S n)) with (64 + 64 * Z.of_nat n) by lia.
      rewrite Z.pow_add_r by lia.
      rewrite Z.rem_mul_r; [done | lia |]. apply Z.pow_pos_nonneg; lia.
Qed.




(** ** trace_six_mult.py: the schoolbook product *)

Lemma carry_step_0 v0 v1 v2 v3 :
  0 <= v0 →
  carry_step [v0; v1; v2; v3] 0
  = Some [v0 mod 2 ^ 64; v1 + v0 / 2 ^ 64; v2; v3].
Proof.
  intros H0. unfold carry_step, list_add.
  cbn [lookup list_lookup mbind option_bind].
  change (Z.shiftl 1 64) with (2 ^ 64).
  change 0xffffffffffffffff with mask64.
  destruct (Z.leb_spec (2 ^ 64) v0).
  - cbn [Nat.add lookup list_lookup mbind option_bind list_set insert
         list_insert]. by rewrite land_mask64, shiftr_64.
  - by rewrite Z.mod_small, Z.div_small, Z.add_0_r by lia.
Qed.

Lemma carry_step_1 v0 v1 v2 v3 :
  0 <= v1 →
  carry_step [v0; v1; v2; v3] 1
  = Some [v0; v1 mod 2 ^ 64; v2 + v1 / 2 ^ 64; v3].
Proof.
  intros H1. unfold carry_step, list_add.
  cbn [lookup list_lookup mbind option_bind].
  change (Z.shiftl 1 64) with (2 ^ 64).
  change 0xffffffffffffffff with mask64.
  destruct (Z.leb_spec (2 ^ 64) v1).
  - cbn [Nat.add lookup list_lookup mbind option_bind list_set insert
         list_insert]. by rewrite land_mask64, shiftr_64.
  - by rewrite Z.mod_small, Z.div_small, Z.add_0_r by lia.
Qed.

Lemma carry_step_2 v0 v1 v2 v3 :
  0 <= v2 →
  carry_step [v0; v1; v2; v3] 2
  = Some [v0; v1; v2 mod 2 ^ 64; v3 + v2 / 2 ^ 64].
Proof.
  intros H2. unfold carry_step, list_add.
  cbn [lookup list_lookup mbind option_bind].
  change (Z.shiftl 1 64) with (2 ^ 64).
  change 0xffffffffffffffff with mask64.
  destruct (Z.leb_spec (2 ^ 64) v2).
  - cbn [Nat.add lookup list_lookup mbind option_bind list_set insert
         list_insert]. by rewrite land_mask64, shiftr_64.
  - by rewrite Z.mod_small, Z.div_small, Z.add_0_r by lia.
Qed.

Lemma four_limbs_unique t r0 r1 r2 r3 :
  limb r0 → limb r1 → limb r2 → limb r3 →
  t = r0 + 2 ^ 64 * r1 + 2 ^ 128 * r2 + 2 ^ 192 * r3 →
  split_limbs 4 t = [r0; r1; r2; r3].
Proof.
  unfold limb. intros H0 H1 H2 H3 ->. cbn [split_limbs].
  rewrite !land_mask64, !shiftr_64.
  change (2 ^ 192) with (18446744073709551616 * 18446744073709551616
                         * 18446744073709551616).
  change (2 ^ 128) with (18446744073709551616 * 18446744073709551616).
  change (2 ^ 64) with 18446744073709551616 in *.
  repeat f_equal; Z.div_mod_to_equations; lia.
Qed.

(** X18: the schoolbook loops of trace_six_mult.py followed by the carry
    pass produce exactly the four 64-bit limbs of the product: for
    [0 <= x, y < 2^128] the list is the limb split of [x * y], with no
    carry lost. *)
Theorem prod_limbs_is_product x y :
  0 <= x < 2 ^ 128 → 0 <= y < 2 ^ 128 →
  prod_limbs x y = Some (split_limbs 4 (x * y)).
Proof.
  intros Hx Hy. unfold prod_limbs, to_limbs, mul_step, list_add.
  change 0xffffffffffffffff with mask64.
  set (a0 := Z.land x mask64). set (a1 := Z.land (Z.shiftr x 64) mask64).
  set (b0 := Z.land y mask64). set (b1 := Z.land (Z.shiftr y 64) mask64).
  assert (Ha0 : limb a0) by apply limb_land.
  assert (Ha1 : limb a1) by apply limb_land.
  assert (Hb0 : limb b0) by apply limb_land.
  assert (Hb1 : limb b1) by apply limb_land.
  assert (Hxv : x = a0 + 2 ^ 64 * a1).
  { subst a0 a1. rewrite !land_mask64, shiftr_64.
    change (2 ^ 128) with (18446744073709551616 * 18446744073709551616) in *.
    change (2 ^ 64) with 18446744073709551616 in *.
    Z.div_mod_to_equations. lia. }
  assert (Hyv : y = b0 + 2 ^ 64 * b1).
  { subst b0 b1. rewrite !land_mask64, shiftr_64.
    change (2 ^ 128) with (18446744073709551616 * 18446744073709551616) in *.
    change (2 ^ 64) with 18446744073709551616 in *.
    Z.div_mod_to_equations. lia. }
  cbv zeta.
  cbn [seq foldlM lookup list_lookup mbind option_bind Nat.add list_set
       insert list_insert].
  rewrite !land_mask64, !shiftr_64.
  unfold limb in *.
  assert (0 <= a0 * b0 <= (2 ^ 64 - 1) * (2 ^ 64 - 1)) by nia.
  assert (0 <= a0 * b1 <= (2 ^ 64 - 1) * (2 ^ 64 - 1)) by nia.
  assert (0 <= a1 * b0 <= (2 ^ 64 - 1) * (2 ^ 64 - 1)) by nia.
  assert (0 <= a1 * b1 <= (2 ^ 64 - 1) * (2 ^ 64 - 1)) by nia.
  set (P00 := a0 * b0) in *. set (P01 := a0 * b1) in *.
  set (P10 := a1 * b0) in *. set (P11 := a1 * b1) in *.
  pose proof (mod64_bound P00). pose proof (mod64_bound P01).
  pose proof (mod64_bound P10). pose proof (mod64_bound P11).
  assert (0 <= P00 / 2 ^ 64) by (apply Z.div_pos; lia).
  assert (0 <= P01 / 2 ^ 64) by (apply Z.div_pos; lia).
  assert (0 <= P10 / 2 ^ 64) by (apply Z.div_pos; lia).
  assert (0 <= P11 / 2 ^ 64) by (apply Z.div_pos; lia).
  rewrite carry_step_0 by lia. cbn [mbind option_bind].
  set (w0 := 0 + P00 mod 2 ^ 64).
  set (w1 := 0 + P00 / 2 ^ 64 + P01 mod 2 ^ 64 + P10 mod 2 ^ 64
             + w0 / 2 ^ 64).
  assert (0 <= w0 / 2 ^ 64) by (apply Z.div_pos; lia).
  rewrite carry_step_1 by lia. cbn [mbind option_bind].
  assert (0 <= w1 / 2 ^ 64) by (apply Z.div_pos; lia).
  set (w2 := 0 + P01 / 2 ^ 64 + P10 / 2 ^ 64 + P11 mod 2 ^ 64
             + w1 / 2 ^ 64).
  rewrite carry_step_2 by lia. cbn [mbind option_bind]. f_equal. symmetry.
  set (w3 := 0 + P11 / 2 ^ 64 + w2 / 2 ^ 64).
  assert (Hsum : x * y
                 = w0 mod 2 ^ 64 + 2 ^ 64 * (w1 mod 2 ^ 64)
                   + 2 ^ 128 * (w2 mod 2 ^ 64) + 2 ^ 192 * w3).
  { replace (x * y)
      with (P00 + 2 ^ 64 * (P01 + P10) + 2 ^ 128 * P11)
      by (subst P00 P01 P10 P11; rewrite Hxv, Hyv;
          change (2 ^ 128) with (2 ^ 64 * 2 ^ 64); ring).
    subst w3 w2 w1 w0.
    change (2 ^ 192) with (18446744073709551616 * 18446744073709551616
                           * 18446744073709551616).
    change (2 ^ 128) with (18446744073709551616 * 18446744073709551616).
    change (2 ^ 64) with 18446744073709551616.
    clear. Z.div_mod_to_equations. lia. }
  apply four_limbs_unique; try apply mod64_bound; [|exact Hsum].
  assert (0 <= w2 / 2 ^ 64) by (apply Z.div_pos; lia).
  assert (0 <= x * y < 2 ^ 128 * 2 ^ 128) by nia.
  pose proof (mod64_bound w0). pose proof (mod64_bound w1).
  pose proof (mod64_bound w2).
  unfold limb. split; [subst w3; lia|].
  change (2 ^ 192) with (18446744073709551616 * 18446744073709551616
                         * 18446744073709551616) in *.
  change (2 ^ 128) with (18446744073709551616 * 18446744073709551616) in *.
  change (2 ^ 64) with 18446744073709551616 in *.
  lia.
Qed.

Lemma prod_limbs_is_product_witness :
  prod_limbs 6 7 = Some (split_limbs 4 (6 * 7)).
Proof. apply (prod_limbs_is_product 6 7); lia. Defined.

(** ** Exponentiation loops *)

Lemma land_1_mod x : Z.land x 1 = x mod 2.
Proof. change 1 with (Z.ones 1) at 1. by rewrite Z.land_ones by lia. Qed.

Lemma mod_pow2_succ e (k : nat) :
  e mod 2 ^ Z.of_nat (S k)
  = e mod 2 ^ Z.of_nat k + 2 ^ Z.of_nat k * ((e / 2 ^ Z.of_nat k) mod 2).
Proof.
  rewrite Nat2Z.inj_succ, Z.pow_succ_r, (Z.mul_comm 2) by lia.
  apply Z.rem_mul_r; [|lia]. apply Z.pow_nonzero; lia.
Qed.

Lemma pow_steps_invariant omega exp p (n : nat) :
  1 < p → 0 <= exp → (n <= 32)%nat →
  let st := fold_left (pow_step exp p) (seq 0 n) (1, omega) in
  fst st = omega ^ (exp mod 2 ^ Z.of_nat n) mod p
  ∧ ((n <= 31)%nat → snd st mod p = omega ^ 2 ^ Z.of_nat n mod p).
Proof.
  intros Hp Hexp. induction n as [|n IH]; intros Hn.
  - cbn [seq fold_left fst snd]. change (2 ^ Z.of_nat 0) with 1.
    rewrite Z.mod_1_r, Z.pow_0_r, Z.pow_1_r, Z.mod_1_l by lia. done.
  - rewrite seq_S, fold_left_app. cbn [fold_left Nat.add].
    destruct (IH ltac:(lia)) as [IHr IHb]. specialize (IHb ltac:(lia)).
    destruct (fold_left (pow_step exp p) (seq 0 n) (1, omega))
      as [result base]. cbn [fst snd] in *.
    assert (H2k : 0 < 2 ^ Z.of_nat n) by (apply Z.pow_pos_nonneg; lia).
    assert (Hek : 0 <= exp mod 2 ^ Z.of_nat n)
      by (apply Z.mod_pos_bound; lia).
    unfold pow_step. rewrite land_1_mod, Z.shiftr_div_pow2 by lia. split.
    + cbn [fst]. rewrite mod_pow2_succ.
      pose proof (Z.mod_pos_bound (exp / 2 ^ Z.of_nat n) 2 ltac:(lia)).
      destruct (Z.eqb_spec ((exp / 2 ^ Z.of_nat n) mod 2) 1) as [->|Hne].
      * rewrite Z.mul_1_r, Z.pow_add_r by lia. rewrite IHr.
        rewrite Z.mul_mod_idemp_l by lia.
        rewrite <- Z.mul_mod_idemp_r, IHb, Z.mul_mod_idemp_r by lia. done.
      * replace ((exp / 2 ^ Z.of_nat n) mod 2) with 0 by lia.
        by rewrite Z.mul_0_r, Z.add_0_r.
    + intros Hn31. cbn [snd].
      destruct (Nat.ltb_spec n 31); [|lia].
      rewrite Z.mod_mod by lia. rewrite Z.mul_mod, IHb, <- Z.mul_mod by lia.
      rewrite <- Z.pow_add_r by lia. do 2 f_equal.
      rewrite Nat2Z.inj_succ, Z.pow_succ_r by lia. lia.
Qed.

(** X21: the bit-by-bit loop of debug_step_by_step.py is modular
    exponentiation: for every modulus [p > 1], every base and every
    exponent [0 <= exp < 2^32] it ends with [omega^exp mod p]. *)
Theorem binary_pow_correct omega exp p :
  1 < p → 0 <= exp < 2 ^ 32 → binary_pow omega exp p = omega ^ exp mod p.
Proof.
  intros Hp Hexp. unfold binary_pow.
  destruct (pow_steps_invariant omega exp p 32 Hp ltac:(lia) ltac:(lia))
    as [Hr _].
  rewrite Hr. change (2 ^ Z.of_nat 32) with (2 ^ 32).
  by rewrite (Z.mod_small exp) by done.
Qed.

Lemma binary_pow_correct_witness : binary_pow 3 5 7 = 3 ^ 5 mod 7.
Proof. apply (binary_pow_correct 3 5 7); lia. Defined.

(** X22: squaring [k >= 1] times modulo [p], as
    compare_intermediate_steps.py does, gives [omega^(2^k) mod p], which
    is what [pow(omega, 2**k, p)] returns. *)
Theorem square_steps_is_pow omega_32 p (k : nat) :
  p ≠ 0 → (1 <= k)%nat →
  square_steps omega_32 p k = pow_mod omega_32 (2 ^ Z.of_nat k) p.
Proof.
  intros Hp Hk. rewrite pow_mod_spec by done.
  induction k as [|[|k] IH]; [lia | |].
  - cbn. by rewrite Z.pow_2_r.
  - unfold square_steps in *. rewrite Nat.iter_succ, IH by lia.
    rewrite <- Z.mul_mod, <- Z.pow_add_r by (done || (apply Z.pow_nonneg; lia)).
    do 2 f_equal. rewrite (Nat2Z.inj_succ (S k)), Z.pow_succ_r by lia. lia.
Qed.

Lemma square_steps_is_pow_witness :
  square_steps 3 7 2 = pow_mod 3 (2 ^ Z.of_nat 2) 7.
Proof. apply (square_steps_is_pow 3 7 2); [discriminate | lia]. Defined.
